(** * The operator tree of [processor.py]

    A shallow embedding of the aggregation engine: the operator classes
    [Matcher], [Filter], [Grouper] and [Summer], the [Processor] that drives
    them, and [copy.deepcopy] as far as [Grouper.run] uses it.

    Python operators are mutable objects that refer to each other, so the
    embedding keeps an explicit object store: an operator is a location, the
    store maps locations to the attributes of the instance, and every method
    is a computation on the store that may raise.  Spreadsheet cells holding
    binary floating-point numbers or dates are not part of the value type. *)

From Stdlib Require Import ZArith.
From stdpp Require Import gmap strings list fin_maps.

#[local] Set Warnings "-register-all".

Open Scope string_scope.
Open Scope list_scope.
Open Scope nat_scope.

(** ** Cell values and records *)

Inductive value :=
| VInt (z : Z)
| VBool (b : bool)
| VStr (s : string)
| VNone.

(** Python's [==] on these values: [bool] is a subclass of [int], so
    [True == 1] and [False == 0]. *)
Definition py_eq (a b : value) : bool :=
  match a, b with
  | VInt x, VInt y => (x =? y)%Z
  | VInt x, VBool c => (x =? Z.b2z c)%Z
  | VBool c, VInt y => (Z.b2z c =? y)%Z
  | VBool c, VBool d => Bool.eqb c d
  | VStr s, VStr t => String.eqb s t
  | VNone, VNone => true
  | _, _ => false
  end.

(** A row of the data source: a [dict] from column name to cell value. *)
Abbreviation record := (gmap string value).

(** ** Exceptions and the store monad *)

Inductive exn := KeyError | TypeError | AttributeError.

Definition exn_eqb (a b : exn) : bool :=
  match a, b with
  | KeyError, KeyError | TypeError, TypeError
  | AttributeError, AttributeError => true
  | _, _ => false
  end.

(** The result of a call: a value, a raised exception, or one of two
    outcomes that belong to the model only.  [OutOfFuel] is a recursion cut
    off by the fuel of the model (CPython raises [RecursionError] at an
    interpreter limit the model does not fix), [Dangling] is a read of a
    location the store does not hold. *)
Inductive outcome (A : Type) :=
| Ok (a : A)
| Raise (e : exn)
| OutOfFuel
| Dangling.
Arguments Ok {A} a.
Arguments Raise {A} e.
Arguments OutOfFuel {A}.
Arguments Dangling {A}.

Abbreviation loc := nat.

(** The attributes of an instance, in the order [__init__] sets them.
    [Blank] is an instance whose [__dict__] is still empty, as
    [copyreg.__newobj__] makes it during a deep copy. *)
Inductive obj :=
| Matcher (matches : list (string * value)) (operators : list loc)
          (name : string)
| Filter (matches : list (string * value)) (operators : list loc)
         (name : string)
| Grouper (group_by : string) (operators : list loc) (name : string)
          (groups : list (value * list loc))
| Summer (var_name : string) (name : string) (total : Z)
| Blank.

Abbreviation heap := (list obj).

Definition M (A : Type) : Type := heap → outcome A * heap.

Definition ret {A} (a : A) : M A := λ h, (Ok a, h).

Definition bind {A B} (m : M A) (k : A → M B) : M B :=
  λ h, match m h with
       | (Ok a, h') => k a h'
       | (Raise e, h') => (Raise e, h')
       | (OutOfFuel, h') => (OutOfFuel, h')
       | (Dangling, h') => (Dangling, h')
       end.

Notation "x <- m ;; k" := (bind m (λ x, k))
  (at level 20, m at level 99, k at level 200,
   format "x  <-  m  ;;  '/' k").
Notation "m >> k" := (bind m (λ _, k))
  (at level 100, k at level 200, right associativity).
Notation "' p <- m ;; k" := (bind m (λ x, match x with p => k end))
  (at level 20, p pattern, m at level 99, k at level 200,
   format "' p  <-  m  ;;  '/' k").

Definition raise {A} (e : exn) : M A := λ h, (Raise e, h).

(** [try: body / except e: handler] *)
Definition try_except {A} (body : M A) (e : exn) (handler : M A) : M A :=
  λ h, match body h with
       | (Raise e', h') => if exn_eqb e e' then handler h' else (Raise e', h')
       | r => r
       end.

Definition deref (l : loc) : M obj :=
  λ h, match h !! l with
       | Some o => (Ok o, h)
       | None => (Dangling, h)
       end.

Definition store (l : loc) (o : obj) : M unit := λ h, (Ok tt, <[l := o]> h).

Definition alloc (o : obj) : M loc := λ h, (Ok (List.length h), h ++ [o]).

(** [data[label]] *)
Definition getitem (data : record) (label : string) : M value :=
  match data !! label with
  | Some v => ret v
  | None => raise KeyError
  end.

(** [for x in xs: body(x)] *)
Fixpoint for_each {A} (body : A → M unit) (xs : list A) : M unit :=
  match xs with
  | [] => ret tt
  | x :: rest => body x >> for_each body rest
  end.

(** ** Dictionaries keyed by cell values

    A [dict] in insertion order; keys are compared with Python's [==]. *)

Fixpoint dict_get {A} (d : list (value * A)) (k : value) : option A :=
  match d with
  | [] => None
  | (k', a) :: rest => if py_eq k' k then Some a else dict_get rest k
  end.

Definition dict_contains {A} (d : list (value * A)) (k : value) : bool :=
  match dict_get d k with Some _ => true | None => false end.

(** [d[k] = a]: an existing key keeps its place, a new one goes last. *)
Fixpoint dict_set {A} (d : list (value * A)) (k : value) (a : A)
  : list (value * A) :=
  match d with
  | [] => [(k, a)]
  | (k', a') :: rest =>
      if py_eq k' k then (k', a) :: rest else (k', a') :: dict_set rest k a
  end.

(** ** [copy.deepcopy] on operators

    The memo maps an instance already copied to its copy, so sharing inside
    the copied structure is kept and cycles end. *)

Abbreviation memo := (gmap loc loc).

(** [_deepcopy_list] on a list of operators. *)
Fixpoint deepcopy_list (f : loc → memo → M (loc * memo)) (xs : list loc)
    (m : memo) : M (list loc * memo) :=
  match xs with
  | [] => ret ([], m)
  | x :: rest =>
      ' (y, m1) <- f x m ;;
      ' (ys, m2) <- deepcopy_list f rest m1 ;;
      ret (y :: ys, m2)
  end.

(** [_deepcopy_dict] on [groups]: keys are atomic, values are lists. *)
Fixpoint deepcopy_dict (f : loc → memo → M (loc * memo))
    (d : list (value * list loc)) (m : memo)
  : M (list (value * list loc) * memo) :=
  match d with
  | [] => ret ([], m)
  | (k, c) :: rest =>
      ' (c', m1) <- deepcopy_list f c m ;;
      ' (rest', m2) <- deepcopy_dict f rest m1 ;;
      ret ((k, c') :: rest', m2)
  end.

(** [_reconstruct]: a blank instance of the class is made and entered in
    the memo, then the attributes are copied in [__dict__] order and set. *)
Fixpoint deepcopy_op (n : nat) (l : loc) (m : memo) : M (loc * memo) :=
  match m !! l with
  | Some l' => ret (l', m)
  | None =>
      match n with
      | O => λ h, (OutOfFuel, h)
      | S n' =>
          o <- deref l ;;
          l' <- alloc Blank ;;
          let m0 := <[l := l']> m in
          match o with
          | Matcher ms ops nm =>
              ' (ops', m1) <- deepcopy_list (deepcopy_op n') ops m0 ;;
              store l' (Matcher ms ops' nm) >>
              ret (l', m1)
          | Filter ms ops nm =>
              ' (ops', m1) <- deepcopy_list (deepcopy_op n') ops m0 ;;
              store l' (Filter ms ops' nm) >>
              ret (l', m1)
          | Grouper gb ops nm gs =>
              ' (ops', m1) <- deepcopy_list (deepcopy_op n') ops m0 ;;
              ' (gs', m2) <- deepcopy_dict (deepcopy_op n') gs m1 ;;
              store l' (Grouper gb ops' nm gs') >>
              ret (l', m2)
          | Summer v nm t =>
              store l' (Summer v nm t) >>
              ret (l', m0)
          | Blank => ret (l', m0)
          end
      end
  end.

(** [deepcopy(self.operators)] *)
Definition deepcopy (n : nat) (ops : list loc) : M (list loc) :=
  ' (ops', _) <- deepcopy_list (deepcopy_op n) ops ∅ ;;
  ret ops'.

(** ** Operators: construction *)

Definition new_Matcher (name : string) (matches : list (string * value))
  : M loc := alloc (Matcher matches [] name).

Definition new_Filter (name : string) (matches : list (string * value))
  : M loc := alloc (Filter matches [] name).

Definition new_Grouper (name : string) (group_by : string) : M loc :=
  alloc (Grouper group_by [] name []).

Definition new_Summer (name : string) (var_name : string) : M loc :=
  alloc (Summer var_name name 0).

(** [self.operators.append(operator)]; [Summer] has no such method. *)
Definition add_operator (l : loc) (operator : loc) : M unit :=
  o <- deref l ;;
  match o with
  | Matcher ms ops nm => store l (Matcher ms (ops ++ [operator]) nm)
  | Filter ms ops nm => store l (Filter ms (ops ++ [operator]) nm)
  | Grouper gb ops nm gs => store l (Grouper gb (ops ++ [operator]) nm gs)
  | Summer _ _ _ | Blank => raise AttributeError
  end.

(** ** Operators: [run] *)

(** The loop of [Matcher.run] and [Filter.run] that computes [match]:
    it stops at the first condition that differs. *)
Fixpoint all_match (matches : list (string * value)) (data : record)
  : M bool :=
  match matches with
  | [] => ret true
  | (label, v) :: rest =>
      x <- getitem data label ;;
      if negb (py_eq x v) then ret false else all_match rest data
  end.

(** [total + x] for an [int] total. *)
Definition py_add (total : Z) (x : value) : M Z :=
  match x with
  | VInt z => ret (total + z)%Z
  | VBool b => ret (total + Z.b2z b)%Z
  | VStr _ | VNone => raise TypeError
  end.

(** [self.groups[k] = c] *)
Definition setitem_groups (l : loc) (k : value) (c : list loc) : M unit :=
  o <- deref l ;;
  match o with
  | Grouper gb ops nm gs => store l (Grouper gb ops nm (dict_set gs k c))
  | _ => raise AttributeError
  end.

(** [self.groups[k]] *)
Definition getitem_groups (l : loc) (k : value) : M (list loc) :=
  o <- deref l ;;
  match o with
  | Grouper _ _ _ gs =>
      match dict_get gs k with
      | Some c => ret c
      | None => raise KeyError
      end
  | _ => raise AttributeError
  end.

Fixpoint run (n : nat) (data : record) (l : loc) : M unit :=
  match n with
  | O => λ h, (OutOfFuel, h)
  | S n' =>
      o <- deref l ;;
      match o with
      | Matcher ms ops _ =>
          matched <- all_match ms data ;;
          if negb matched then ret tt
          else for_each (run n' data) ops
      | Filter ms ops _ =>
          matched <- all_match ms data ;;
          if matched then ret tt
          else for_each (run n' data) ops
      | Grouper gb ops _ gs =>
          k <- getitem data gb ;;
          (if negb (dict_contains gs k)
           then c <- deepcopy n' ops ;; setitem_groups l k c
           else ret tt) >>
          c <- getitem_groups l k ;;
          for_each (run n' data) c
      | Summer v nm t =>
          try_except
            (x <- getitem data v ;;
             t' <- py_add t x ;;
             store l (Summer v nm t'))
            TypeError
            (ret tt)
      | Blank => raise AttributeError
      end
  end.

(** ** Operators: [output] *)

Inductive pyval :=
| PVal (v : value)
| PObj (l : loc)
| PTuple (xs : list pyval)
| PDict (d : list (value * pyval)).

(** [name, operator = x] with [x] an operator instance: the operator
    classes define neither [__iter__] nor [__getitem__], so the unpacking
    raises [TypeError]. *)
Definition unpack_operator (x : loc) : M (value * loc) := raise TypeError.

(** The result pair of [output()] as the tuple it is. *)
Definition as_tuple (p : string * pyval) : pyval :=
  PTuple [PVal (VStr (fst p)); snd p].

(** The loop of [Matcher.output] and [Filter.output]. *)
Fixpoint output_loop (out : loc → M (string * pyval))
    (output : list (value * pyval)) (ops : list loc)
  : M (list (value * pyval)) :=
  match ops with
  | [] => ret output
  | x :: rest =>
      ' (name, operator) <- unpack_operator x ;;
      r <- out operator ;;
      output_loop out (dict_set output name (as_tuple r)) rest
  end.

(** The inner loop of [Grouper.output], over one group. *)
Fixpoint group_items (inner : list (value * pyval)) (group : list loc)
  : M (list (value * pyval)) :=
  match group with
  | [] => ret inner
  | x :: rest =>
      ' (item_name, item) <- unpack_operator x ;;
      group_items (dict_set inner item_name (PObj item)) rest
  end.

(** The outer loop of [Grouper.output], over [self.groups.items()]. *)
Fixpoint groups_loop (output : list (value * pyval))
    (gs : list (value * list loc)) : M (list (value * pyval)) :=
  match gs with
  | [] => ret output
  | (name, group) :: rest =>
      inner <- group_items [] group ;;
      groups_loop (dict_set output name (PDict inner)) rest
  end.

Fixpoint output (n : nat) (l : loc) : M (string * pyval) :=
  match n with
  | O => λ h, (OutOfFuel, h)
  | S n' =>
      o <- deref l ;;
      match o with
      | Matcher _ ops nm | Filter _ ops nm =>
          d <- output_loop (output n') [] ops ;;
          ret (nm, PDict d)
      | Grouper _ _ nm gs =>
          d <- groups_loop [] gs ;;
          ret (nm, PDict d)
      | Summer _ nm t => ret (nm, PVal (VInt t))
      | Blank => raise AttributeError
      end
  end.

(** ** The engine *)

Record Processor := {
  data_iterator : list record;
  proc_operators : list loc
}.

(** [Processor.add_operator] *)
Definition Processor_add_operator (p : Processor) (new_operator : loc)
  : Processor :=
  {| data_iterator := data_iterator p;
     proc_operators := proc_operators p ++ [new_operator] |}.

(** [Processor.start] *)
Definition Processor_start (n : nat) (p : Processor) : M unit :=
  for_each (λ data, for_each (run n data) (proc_operators p))
           (data_iterator p).

(** The loop of [Processor.output]. *)
Fixpoint collect_loop (n : nat) (output_ : list (value * pyval))
    (ops : list loc) : M (list (value * pyval)) :=
  match ops with
  | [] => ret output_
  | operator :: rest =>
      ' (name, result) <- output n operator ;;
      collect_loop n (dict_set output_ (VStr name) result) rest
  end.

(** [Processor.output] *)
Definition Processor_output (n : nat) (p : Processor)
  : M (list (value * pyval)) :=
  collect_loop n [] (proc_operators p).

(** ** Notions used to state the properties *)

(** A condition of a gate holds on a record: the field is there and its
    value is equal to the configured one. *)
Definition cond_holds (data : record) (c : string * value) : bool :=
  match data !! c.1 with
  | Some x => py_eq x c.2
  | None => false
  end.

(** An instance of one of the two gate classes: [Filter] when [exclude]. *)
Definition gate (exclude : bool) (ms : list (string * value))
    (ops : list loc) (nm : string) : obj :=
  if exclude then Filter ms ops nm else Matcher ms ops nm.

(** The operators an instance refers to: its children and, for a
    [Grouper], the operators of every group. *)
Definition refs (o : obj) : list loc :=
  match o with
  | Matcher _ ops _ | Filter _ ops _ => ops
  | Grouper _ ops _ gs => ops ++ mjoin (gs.*2)
  | Summer _ _ _ | Blank => []
  end.

(** [reach h l x]: the instance [x] is [l] or is below [l] in the store. *)
Inductive reach (h : heap) : loc → loc → Prop :=
| reach_refl l : reach h l l
| reach_step l o l' x :
    h !! l = Some o → l' ∈ refs o → reach h l' x → reach h l x.

Definition reach_from (h : heap) (ls : list loc) (x : loc) : Prop :=
  ∃ l, l ∈ ls ∧ reach h l x.

(** Every reference in the store is to an instance of the store. *)
Definition closed (h : heap) : Prop :=
  ∀ l o y, h !! l = Some o → y ∈ refs o → y < List.length h.

(** [grows h h']: the store [h'] comes from [h] by new instances that
    refer to new instances only, and by updates that add to an old
    instance references to new instances only. *)
Definition grows (h h' : heap) : Prop :=
  List.length h ≤ List.length h' ∧
  (∀ x o', x < List.length h → h' !! x = Some o' →
     ∃ o, h !! x = Some o ∧
          ∀ y, y ∈ refs o' → y ∈ refs o ∨ List.length h ≤ y) ∧
  (∀ x o' y, List.length h ≤ x → h' !! x = Some o' → y ∈ refs o' →
     List.length h ≤ y).

(** The copy of a reference and of an instance under a memo. *)
Definition ren (m : memo) (y : loc) : loc := default y (m !! y).

Definition rename (m : memo) (o : obj) : obj :=
  match o with
  | Matcher ms ops nm => Matcher ms (ren m <$> ops) nm
  | Filter ms ops nm => Filter ms (ren m <$> ops) nm
  | Grouper gb ops nm gs =>
      Grouper gb (ren m <$> ops) nm
        ((λ kc : value * list loc, (kc.1, ren m <$> kc.2)) <$> gs)
  | Summer v nm t => Summer v nm t
  | Blank => Blank
  end.

(** The state an instance has when it is constructed: a [Summer] at zero,
    a [Grouper] without groups. *)
Definition initial (o : obj) : Prop :=
  match o with
  | Summer _ _ t => t = 0%Z
  | Grouper _ _ _ gs => gs = []
  | _ => True
  end.

(** [deep_clone h ops h' c]: in [h'], which keeps every instance of [h]
    as it is, the list [c] is a deep copy of the list [ops] of [h]: each
    instance below [ops] has a copy that is a new instance with the same
    attributes, its references replaced by the copies of their targets. *)
Definition deep_clone (h : heap) (ops : list loc) (h' : heap)
    (c : list loc) : Prop :=
  ∃ m : memo,
    h `prefix_of` h' ∧
    c = ren m <$> ops ∧
    ∀ x, reach_from h ops x →
      ∃ x' o, m !! x = Some x' ∧ List.length h ≤ x' ∧
              h !! x = Some o ∧ h' !! x' = Some (rename m o).

(** [separated h g]: the groups of the [Grouper] at [g] share no instance
    with each other, with the template children or with [g] itself, and
    [g] is not below its own template. *)
Definition separated (h : heap) (g : loc) : Prop :=
  ∃ gb tmpl nm gs,
    h !! g = Some (Grouper gb tmpl nm gs) ∧
    ¬ reach_from h tmpl g ∧
    (∀ i k c x, gs !! i = Some (k, c) → reach_from h c x →
       x ≠ g ∧ ¬ reach_from h tmpl x) ∧
    (∀ i j ki ci kj cj x, i ≠ j →
       gs !! i = Some (ki, ci) → gs !! j = Some (kj, cj) →
       reach_from h ci x → ¬ reach_from h cj x).

(** *** The course of a deep copy

    [hb] is the store when [deepcopy] is called, [h] the store at some
    point of the copy and [m] the memo at that point. *)

(** The instances made since [hb] refer to instances made since [hb]. *)
Definition fresh_cells (hb h : heap) : Prop :=
  hb `prefix_of` h ∧
  ∀ x' o' y, List.length hb ≤ x' → h !! x' = Some o' → y ∈ refs o' →
    List.length hb ≤ y < List.length h.

(** The memo maps instances of [hb] to instances made since. *)
Definition memo_bounds (hb : heap) (m : memo) (h : heap) : Prop :=
  ∀ x x', m !! x = Some x' →
    x < List.length hb ∧ List.length hb ≤ x' < List.length h.

(** [x'] holds the finished copy of [x]. *)
Definition copied (hb : heap) (m : memo) (h : heap) (x x' : loc) : Prop :=
  ∃ o, hb !! x = Some o ∧ h !! x' = Some (rename m o) ∧
       ∀ y, y ∈ refs o → is_Some (m !! y).

(** What a call that started at [m], [h] and returned at [m'], [h'] has
    done: every entry it added to the memo is a finished copy. *)
Definition copy_post (hb : heap) (m : memo) (h : heap) (m' : memo)
    (h' : heap) : Prop :=
  m ⊆ m' ∧ memo_bounds hb m' h' ∧
  ∀ x x', m' !! x = Some x' → m !! x = None →
    List.length h ≤ x' ∧ copied hb m' h' x x'.

(** The contract of the function that copies one operator, with [k] the
    fuel it has. *)
Definition copier (hb : heap) (k : nat) (f : loc → memo → M (loc * memo))
  : Prop :=
  ∀ l m h r h',
    fresh_cells hb h → memo_bounds hb m h → l < List.length hb →
    f l m h = (r, h') →
    fresh_cells hb h' ∧ h `prefix_of` h' ∧
    (List.length hb ≤ k + size m → ∃ p, r = Ok p) ∧
    (∀ l' m', r = Ok (l', m') → m' !! l = Some l' ∧ copy_post hb m h m' h').

(** ** Example configurations *)

Definition rec_A10 : record := {[ "dept" := VStr "A"; "amt" := VInt 10 ]}.
Definition rec_A5 : record := {[ "dept" := VStr "A"; "amt" := VInt 5 ]}.
Definition rec_B7 : record := {[ "dept" := VStr "B"; "amt" := VInt 7 ]}.

(** A [Grouper] on "dept" whose template child is a [Summer] on "amt". *)
Definition build_grouper : M loc :=
  g <- new_Grouper "group" "dept" ;;
  s <- new_Summer "total" "amt" ;;
  add_operator g s >>
  ret g.

(** The store of that [Grouper] after the records of "A". *)
Definition store_A15 : heap :=
  [Grouper "dept" [1] "group" [(VStr "A", [2])];
   Summer "amt" "total" 0; Summer "amt" "total" 15].

(** A [Grouper] without groups whose template child was run before. *)
Definition store_template_5 : heap :=
  [Grouper "dept" [1] "group" []; Summer "amt" "total" 5].

(** A gate with one [Summer] child. *)
Definition build_gate (exclude : bool) (ms : list (string * value))
  : M loc :=
  m <- (if exclude then new_Filter "gate" ms else new_Matcher "gate" ms) ;;
  s <- new_Summer "total" "amt" ;;
  add_operator m s >>
  ret m.

(** ** Sums over the records of a pass *)

(** What a cell value adds to a total: itself when it is a number,
    nothing when [Summer.run] skips it. *)
Definition numeric (x : value) : Z :=
  match x with
  | VInt z => z
  | VBool b => Z.b2z b
  | VStr _ | VNone => 0%Z
  end.

Definition field_value (v : string) (data : record) : Z :=
  match data !! v with
  | Some x => numeric x
  | None => 0%Z
  end.

Fixpoint field_sum (v : string) (datas : list record) : Z :=
  match datas with
  | [] => 0%Z
  | d :: rest => (field_value v d + field_sum v rest)%Z
  end.

(** The record passes a gate: all conditions hold, negated for a
    [Filter]. *)
Definition passes (exclude : bool) (ms : list (string * value))
    (data : record) : bool :=
  xorb exclude (forallb (cond_holds data) ms).

(** The record belongs to the group of the key [k]. *)
Definition has_key (gb : string) (k : value) (data : record) : bool :=
  match data !! gb with
  | Some k' => py_eq k' k
  | None => false
  end.

(** ** What [run] may change of an instance

    [evolves o o']: [o'] is [o] up to the total of a [Summer] and up to
    groups added at the end of the groups of a [Grouper]. *)
Definition evolves (o o' : obj) : Prop :=
  match o, o' with
  | Matcher ms ops nm, Matcher ms' ops' nm' =>
      ms = ms' ∧ ops = ops' ∧ nm = nm'
  | Filter ms ops nm, Filter ms' ops' nm' =>
      ms = ms' ∧ ops = ops' ∧ nm = nm'
  | Grouper gb ops nm gs, Grouper gb' ops' nm' gs' =>
      gb = gb' ∧ ops = ops' ∧ nm = nm' ∧ gs `prefix_of` gs'
  | Summer v nm _, Summer v' nm' _ => v = v' ∧ nm = nm'
  | Blank, Blank => True
  | _, _ => False
  end.

(** ** The spreadsheet adapter of [openpyxl_adapter.py]

    The workbook is not part of the embedding: the header row and the
    data rows are given as lists of cells, a cell being its column number
    ([cell.column]) and its value ([cell.value]).  The function
    [openpyxl.utils.get_column_letter] is not part of the repository
    either: it is a parameter that gives, for its argument, the letter it
    returns or the exception it raises. *)
Module Adapter.

Inductive exn :=
| ValueError
| KeyError
| TypeError
| StopIteration
| Other (class_name : string).

Record cell := { column : Z; content : value }.

(** The loop of [OpenpyxlDataSource.__init__] over the header row.
    The test looks the header value up among the keys of the mapping,
    which are column numbers.  On the other branch the message of the
    [ValueError] is built first, which evaluates
    [get_column_letter(self.mapping[cell.value])]: if that call raises,
    its exception is the outcome. *)
Fixpoint map_columns (get_column_letter : value → exn + string)
    (mapping : list (value * value)) (row : list cell)
  : exn + list (value * value) :=
  match row with
  | [] => inr mapping
  | c :: rest =>
      if negb (dict_contains mapping (content c))
      then map_columns get_column_letter
             (dict_set mapping (VInt (column c)) (content c)) rest
      else
        match dict_get mapping (content c) with
        | Some v =>
            match get_column_letter v with
            | inl e => inl e
            | inr _ => inl ValueError
            end
        | None => inl KeyError
        end
  end.

(** The loop of [__next__] over the cells of one row. *)
Fixpoint fill_row (mapping row_content : list (value * value))
    (row : list cell) : exn + list (value * value) :=
  match row with
  | [] => inr row_content
  | c :: rest =>
      match dict_get mapping (VInt (column c)) with
      | Some name =>
          fill_row mapping (dict_set row_content name (content c)) rest
      | None => inl KeyError
      end
  end.

(** The data source: the mapping and the rows not yet read. *)
Record source := { mapping : list (value * value); rows : list (list cell) }.

(** [OpenpyxlDataSource.__init__] after the workbook is read. *)
Definition init (get_column_letter : value → exn + string)
    (header : list cell) (data_rows : list (list cell)) : exn + source :=
  match map_columns get_column_letter [] header with
  | inl e => inl e
  | inr m => inr {| mapping := m; rows := data_rows |}
  end.

(** [OpenpyxlDataSource.__next__] *)
Definition next (s : source) : (exn + list (value * value)) * source :=
  match rows s with
  | [] => (inl StopIteration, s)
  | row :: rest =>
      (fill_row (mapping s) [] row, {| mapping := mapping s; rows := rest |})
  end.

End Adapter.

(** [keeps h h']: every instance of [h] is in [h'], changed at most as
    [evolves] allows. *)
Definition keeps (h h' : heap) : Prop :=
  ∀ x o, h !! x = Some o → ∃ o', h' !! x = Some o' ∧ evolves o o'.

(** [closed], decided. *)
Definition closedb (h : heap) : bool :=
  forallb (λ o, forallb (λ y, y <? List.length h) (refs o)) h.

(** A gate over one [Summer], beside a [Summer] that is no child of it. *)
Definition store_gate : heap :=
  [Matcher [] [1] "gate"; Summer "amt" "total" 0; Summer "amt" "other" 7].

(** The state of a [Grouper] at [g] over the one [Summer] at [s], after
    the records [done], in a store whose first [B] instances were there
    before the pass: group number [j] is the one instance [B + j], which
    holds the template total raised by the sum over the records of its
    key. *)
Definition group_state (B : nat) (g s : loc) (gb nm v nmS : string)
    (t0 : Z) (done : list record) (gs : list (value * list loc))
    (h : heap) : Prop :=
  h !! g = Some (Grouper gb [s] nm gs) ∧
  h !! s = Some (Summer v nmS t0) ∧
  g < B ∧ s < B ∧ List.length h = B + List.length gs ∧
  (∀ j k c, gs !! j = Some (k, c) →
     c = [B + j] ∧
     existsb (has_key gb k) done = true ∧
     h !! (B + j)
     = Some (Summer v nmS
               (t0 + field_sum v (List.filter (has_key gb k) done))%Z)) ∧
  (∀ i j ki ci kj cj, i ≠ j →
     gs !! i = Some (ki, ci) → gs !! j = Some (kj, cj) →
     py_eq ki kj = false) ∧
  (∀ k, dict_get gs k = None → existsb (has_key gb k) done = false).


(** * Properties *)

(** ** Conditions of [Matcher] and [Filter] *)

Lemma all_match_holds ms data h :
  forallb (cond_holds data) ms = true → all_match ms data h = (Ok true, h).
Proof.
  induction ms as [|[label v] ms IH]; simpl; [done|].
  intros [Hc Hms]%andb_prop. unfold cond_holds in Hc. simpl in Hc.
  unfold bind, getitem. destruct (data !! label) as [x|]; [|done].
  simpl. rewrite Hc. simpl. by apply IH.
Qed.

Lemma all_match_cons label v post data h :
  all_match ((label, v) :: post) data h
  = match data !! label with
    | None => (Raise KeyError, h)
    | Some x => if py_eq x v then all_match post data h else (Ok false, h)
    end.
Proof.
  cbn [all_match]. unfold bind, getitem.
  destruct (data !! label) as [x|]; [|done].
  unfold ret at 1. by destruct (py_eq x v).
Qed.

Lemma all_match_app ms c post data h :
  forallb (cond_holds data) ms = true →
  all_match (ms ++ c :: post) data h = all_match (c :: post) data h.
Proof.
  induction ms as [|[label' v'] ms IH]; [done|].
  intros [Hc Hms]%andb_prop. unfold cond_holds in Hc. simpl in Hc.
  cbn [app all_match]. unfold bind at 1, getitem at 1.
  destruct (data !! label') as [x|]; [|done].
  simpl. rewrite Hc. simpl. by apply IH.
Qed.

Lemma all_match_present ms data h :
  (∀ c, c ∈ ms → is_Some (data !! c.1)) →
  all_match ms data h = (Ok (forallb (cond_holds data) ms), h).
Proof.
  induction ms as [|[label v] ms IH]; [done|]. intros Hall.
  destruct (Hall (label, v)) as [x Hx]; [by left|]. simpl in Hx.
  cbn [all_match forallb]. unfold cond_holds at 1. simpl.
  unfold bind, getitem. rewrite Hx. simpl.
  destruct (py_eq x v); simpl; [|done].
  apply IH. intros c Hc. apply Hall. by right.
Qed.

(** Both gates run the same loop and differ in the branch they take. *)
Lemma run_gate n data l k ms ops nm h :
  h !! l = Some (gate k ms ops nm) →
  run (S n) data l h
  = (matched <- all_match ms data ;;
     if xorb k matched then for_each (run n data) ops else ret tt) h.
Proof.
  intros Hl. cbn [run]. unfold bind at 1, deref. rewrite Hl.
  destruct k; simpl; unfold bind;
    destruct (all_match ms data h) as [[[]| | |] h']; done.
Qed.



(** C8. A [Filter] without conditions never hands a record to a child:
    the match is vacuously true, so [run] returns at once and the store
    is as it was. *)
Theorem Filter_run_no_conditions n data l ops nm h :
  h !! l = Some (Filter [] ops nm) →
  run (S n) data l h = (Ok tt, h).
Proof.
  intros Hl. by rewrite (run_gate n data l true [] ops nm h Hl).
Qed.

Lemma Filter_run_no_conditions_witness :
  run 2 rec_A10 0 [Filter [] [1] "gate"; Summer "amt" "total" 0]
  = (Ok tt, [Filter [] [1] "gate"; Summer "amt" "total" 0]).
Proof.
  apply (Filter_run_no_conditions 1 rec_A10 0 [1] "gate"
           [Filter [] [1] "gate"; Summer "amt" "total" 0]).
  reflexivity.
Defined.



(** C2 as the code has it: a gate looks fields up with [data[label]],
    so a record that lacks the field of a condition makes [run] raise. *)
Lemma gate_run_missing_field_raises :
  run 1 ∅ 0 [Matcher [("dept", VStr "A")] [] "gate"]
  = (Raise KeyError, [Matcher [("dept", VStr "A")] [] "gate"]) ∧
  run 1 ∅ 0 [Filter [("dept", VStr "A")] [] "gate"]
  = (Raise KeyError, [Filter [("dept", VStr "A")] [] "gate"]).
Proof. split; reflexivity. Qed.

(** C2, amended. For a [Matcher] and for a [Filter] alike, let a
    condition on [label] come after conditions that all hold.  If the
    record has no field [label], [run] raises [KeyError], runs no child
    and leaves the store as it was.  If the record has the field with a
    different value, the loop stops there: the conditions after it are not
    looked at, whether their fields are in the record or not, and the
    record counts as a non-match. *)
Theorem gate_run_absent_field n data k pre label v post ops nm l h :
  forallb (cond_holds data) pre = true →
  h !! l = Some (gate k (pre ++ (label, v) :: post) ops nm) →
  (data !! label = None → run (S n) data l h = (Raise KeyError, h)) ∧
  (∀ x, data !! label = Some x → py_eq x v = false →
     run (S n) data l h
     = (if k then for_each (run n data) ops h else (Ok tt, h))).
Proof.
  intros Hpre Hl.
  pose proof (run_gate n data l k _ ops nm h Hl) as Hr. unfold bind in Hr.
  rewrite (all_match_app pre (label, v) post data h Hpre) in Hr.
  rewrite all_match_cons in Hr. rewrite Hr. clear Hr.
  destruct (data !! label) as [x|]; split; try done.
  intros x' [= <-] Hx. rewrite Hx. by destruct k.
Qed.

Lemma gate_run_absent_field_witness :
  (rec_A10 !! "zone" = None →
   run 2 rec_A10 0
     [Filter [("dept", VStr "A"); ("zone", VInt 1)] [1] "gate";
      Summer "amt" "total" 0]
   = (Raise KeyError,
      [Filter [("dept", VStr "A"); ("zone", VInt 1)] [1] "gate";
       Summer "amt" "total" 0])) ∧
  (∀ x, rec_A10 !! "zone" = Some x → py_eq x (VInt 1) = false →
     run 2 rec_A10 0
       [Filter [("dept", VStr "A"); ("zone", VInt 1)] [1] "gate";
        Summer "amt" "total" 0]
     = for_each (run 1 rec_A10) [1]
         [Filter [("dept", VStr "A"); ("zone", VInt 1)] [1] "gate";
          Summer "amt" "total" 0]).
Proof.
  apply (gate_run_absent_field 1 rec_A10 true [("dept", VStr "A")]
           "zone" (VInt 1) [] [1] "gate" 0).
  - reflexivity.
  - reflexivity.
Defined.

(** ** [Summer] *)

(** C3 as the code has it: [Summer.run] catches [TypeError] only, so a
    record without the summed field makes it raise [KeyError]. *)
Lemma Summer_run_missing_field_raises :
  run 1 ∅ 0 [Summer "amt" "total" 0]
  = (Raise KeyError, [Summer "amt" "total" 0]).
Proof. reflexivity. Qed.

(** [Summer.run] writes at most the instance it is called on. *)
Lemma run_Summer_store n data v nm t l h r h' :
  h !! l = Some (Summer v nm t) → run (S n) data l h = (r, h') →
  h' = h ∨ ∃ t', h' = <[l := Summer v nm t']> h.
Proof.
  intros Hl. cbn [run]. unfold bind at 1, deref. rewrite Hl.
  unfold try_except, bind, getitem.
  destruct (data !! v) as [[z|b|s|]|]; intros [= <- <-]; eauto.
Qed.

(** C3, amended. [Summer.run] adds an [int] or [bool] value of the
    field to the total; on a value of the field that is not a number
    (a string or [None]) it returns without raising and the store is as
    it was; on a record without the field it raises [KeyError] and the
    total is as it was. *)
Theorem Summer_run_cases n data v nm t l h :
  h !! l = Some (Summer v nm t) →
  run (S n) data l h
  = match data !! v with
    | Some (VInt z) => (Ok tt, <[l := Summer v nm (t + z)%Z]> h)
    | Some (VBool b) => (Ok tt, <[l := Summer v nm (t + Z.b2z b)%Z]> h)
    | Some (VStr _) | Some VNone => (Ok tt, h)
    | None => (Raise KeyError, h)
    end.
Proof.
  intros Hl. cbn [run]. unfold bind at 1, deref. rewrite Hl.
  unfold try_except, bind, getitem.
  destruct (data !! v) as [[z|b|s|]|]; reflexivity.
Qed.

Lemma Summer_run_cases_witness :
  run 1 rec_A10 0 [Summer "amt" "total" 5]
  = match rec_A10 !! "amt" with
    | Some (VInt z) => (Ok tt, <[0 := Summer "amt" "total" (5 + z)%Z]>
                                 [Summer "amt" "total" 5])
    | Some (VBool b) =>
        (Ok tt, <[0 := Summer "amt" "total" (5 + Z.b2z b)%Z]>
                  [Summer "amt" "total" 5])
    | Some (VStr _) | Some VNone => (Ok tt, [Summer "amt" "total" 5])
    | None => (Raise KeyError, [Summer "amt" "total" 5])
    end.
Proof.
  apply (Summer_run_cases 0 rec_A10 "amt" "total" 5 0
           [Summer "amt" "total" 5]).
  reflexivity.
Defined.

(** ** [output] *)

(** C4 at a gate with one child: the loop of [output] unpacks a child
    instance as a pair, which raises [TypeError], for a [Matcher] and for
    a [Filter]. *)
Theorem gate_output_with_child_raises :
  (m <- build_gate false [] ;; output 2 m) []
  = (Raise TypeError, [Matcher [] [1] "gate"; Summer "amt" "total" 0]) ∧
  (m <- build_gate true [] ;; output 2 m) []
  = (Raise TypeError, [Filter [] [1] "gate"; Summer "amt" "total" 0]).
Proof. split; reflexivity. Qed.

(** C5 at a [Grouper] with one group of one child: the inner loop of
    [output] unpacks the cloned child as a pair, which raises
    [TypeError]. *)
Theorem Grouper_output_with_group_raises :
  (g <- build_grouper ;; run 3 rec_A10 g >> output 2 g) []
  = (Raise TypeError,
     [Grouper "dept" [1] "group" [(VStr "A", [2])];
      Summer "amt" "total" 0; Summer "amt" "total" 10]).
Proof. reflexivity. Qed.

(** ** [Grouper] over [Summer] on three records *)

(** C6. A [Grouper] on "dept" over a [Summer] on "amt": after the two
    records of "A" the group "A" holds the total 15; a further record of
    "B" makes a new group "B" with the total 7, and the total of "A"
    stays 15 (the template child stays at 0). *)
Theorem Grouper_Summer_replay :
  (g <- build_grouper ;; for_each (λ d, run 3 d g) [rec_A10; rec_A5]) []
  = (Ok tt, [Grouper "dept" [1] "group" [(VStr "A", [2])];
             Summer "amt" "total" 0; Summer "amt" "total" 15]) ∧
  run 3 rec_B7 0
    [Grouper "dept" [1] "group" [(VStr "A", [2])];
     Summer "amt" "total" 0; Summer "amt" "total" 15]
  = (Ok tt, [Grouper "dept" [1] "group" [(VStr "A", [2]); (VStr "B", [3])];
             Summer "amt" "total" 0; Summer "amt" "total" 15;
             Summer "amt" "total" 7]).
Proof. split; reflexivity. Qed.

(** ** [output] reads and never writes *)

(** [output] of a gate raises as soon as the gate has a child, whatever
    the child is. *)
Lemma gate_output_raises n l k ms x ops nm h :
  h !! l = Some (gate k ms (x :: ops) nm) →
  output (S n) l h = (Raise TypeError, h).
Proof.
  intros Hl. cbn [output]. unfold bind at 1, deref. rewrite Hl.
  by destruct k.
Qed.

(** [output] of a gate without children is the pair of its name and an
    empty mapping. *)
Lemma gate_output_no_child n l k ms nm h :
  h !! l = Some (gate k ms [] nm) →
  output (S n) l h = (Ok (nm, PDict []), h).
Proof.
  intros Hl. cbn [output]. unfold bind at 1, deref. rewrite Hl.
  by destruct k.
Qed.

(** [output] of a [Grouper] raises as soon as its first group has a
    child. *)
Lemma Grouper_output_raises n l gb ops nm key x group gs h :
  h !! l = Some (Grouper gb ops nm ((key, x :: group) :: gs)) →
  output (S n) l h = (Raise TypeError, h).
Proof.
  intros Hl. cbn [output]. unfold bind at 1, deref. by rewrite Hl.
Qed.

Lemma output_loop_heap out d ops h : (output_loop out d ops h).2 = h.
Proof. by destruct ops. Qed.

Lemma group_items_heap d group h : (group_items d group h).2 = h.
Proof. by destruct group. Qed.

Lemma groups_loop_heap gs : ∀ d h, (groups_loop d gs h).2 = h.
Proof.
  induction gs as [|[k group] gs IH]; intros d h; [done|].
  cbn [groups_loop]. unfold bind.
  pose proof (group_items_heap [] group h) as Hg.
  destruct (group_items [] group h) as [[inner| | |] h1];
    simpl in Hg; subst h1; [apply IH|done..].
Qed.

Lemma output_heap n l h : (output n l h).2 = h.
Proof.
  destruct n as [|n]; [done|]. cbn [output]. unfold bind at 1, deref.
  destruct (h !! l) as [[ms ops nm|ms ops nm|gb ops nm gs|v nm t|]|];
    try done.
  - unfold bind. pose proof (output_loop_heap (output n) [] ops h) as Hh.
    destruct (output_loop (output n) [] ops h) as [[d| | |] h1];
      simpl in Hh; by subst h1.
  - unfold bind. pose proof (output_loop_heap (output n) [] ops h) as Hh.
    destruct (output_loop (output n) [] ops h) as [[d| | |] h1];
      simpl in Hh; by subst h1.
  - unfold bind. pose proof (groups_loop_heap gs [] h) as Hh.
    destruct (groups_loop [] gs h) as [[d| | |] h1];
      simpl in Hh; by subst h1.
Qed.

Lemma collect_loop_heap n ops : ∀ d h, (collect_loop n d ops h).2 = h.
Proof.
  induction ops as [|x ops IH]; intros d h; [done|].
  cbn [collect_loop]. unfold bind.
  pose proof (output_heap n x h) as Hh.
  destruct (output n x h) as [[[nm r]| | |] h1];
    simpl in Hh; subst h1; [apply IH|done..].
Qed.

(** C9. [output] of an operator and [Processor.output] only read: the
    store after the call is the store before it, whatever the call
    returns or raises; hence a second call just after the first gives the
    result of the first. *)
Theorem output_read_only_idempotent :
  (∀ n l h, (output n l h).2 = h) ∧
  (∀ n p h, (Processor_output n p h).2 = h) ∧
  (∀ n l h, output n l (output n l h).2 = output n l h) ∧
  (∀ n p h,
     Processor_output n p (Processor_output n p h).2
     = Processor_output n p h).
Proof.
  split_and!.
  - apply output_heap.
  - intros n p h. apply collect_loop_heap.
  - intros n l h. by rewrite output_heap.
  - intros n p h. unfold Processor_output. by rewrite collect_loop_heap.
Qed.

(** ** The object store: reachability and growth *)

Lemma reach_trans h a b c : reach h a b → reach h b c → reach h a c.
Proof.
  induction 1 as [|l o l' x Hl Hin _ IH]; [done|].
  intros Hc. eapply reach_step; eauto.
Qed.

Lemma reach_child h l o y x :
  h !! l = Some o → y ∈ refs o → reach h y x → reach h l x.
Proof. intros. eapply reach_step; eauto. Qed.

Lemma reach_lt h a x :
  closed h → a < List.length h → reach h a x → x < List.length h.
Proof.
  intros Hc Ha Hr. induction Hr as [|l o l' x Hl Hin _ IH]; [done|].
  apply IH. eapply Hc; eauto.
Qed.

Lemma reach_from_lt h ls x :
  closed h → (∀ l, l ∈ ls → l < List.length h) →
  reach_from h ls x → x < List.length h.
Proof. intros Hc Hls (l & Hl & Hr). eapply reach_lt; eauto. Qed.

(** Where the store did not change below [a], the same is below [a]. *)
Lemma reach_same_1 h h' a x :
  (∀ y, reach h a y → h' !! y = h !! y) → reach h a x → reach h' a x.
Proof.
  intros Hsame Hr. induction Hr as [|l o l' x Hl Hin Hr IH]; [constructor|].
  eapply reach_step; [|done|].
  - rewrite Hsame; [done|constructor].
  - apply IH. intros y Hy. apply Hsame. eapply reach_step; eauto.
Qed.

Lemma reach_same_2 h h' a x :
  (∀ y, reach h a y → h' !! y = h !! y) → reach h' a x → reach h a x.
Proof.
  intros Hsame Hr. induction Hr as [|l o l' x Hl Hin Hr IH]; [constructor|].
  rewrite Hsame in Hl; [|constructor].
  eapply reach_step; [done..|].
  apply IH. intros y Hy. apply Hsame. eapply reach_step; eauto.
Qed.

Lemma reach_from_same h h' ls x :
  (∀ y, reach_from h ls y → h' !! y = h !! y) →
  reach_from h' ls x ↔ reach_from h ls x.
Proof.
  intros Hsame. split; intros (l & Hl & Hr); exists l; split; try done.
  - eapply reach_same_2; [|done]. intros y Hy. apply Hsame. by exists l.
  - eapply reach_same_1; [|done]. intros y Hy. apply Hsame. by exists l.
Qed.

Lemma grows_refl h : grows h h.
Proof.
  split_and!; [done|..].
  - intros x o' _ Hx. exists o'. split; [done|]. by left.
  - intros x o' y Hx Hl. apply lookup_lt_Some in Hl. lia.
Qed.

Lemma grows_trans h1 h2 h3 : grows h1 h2 → grows h2 h3 → grows h1 h3.
Proof.
  intros (Hlen1 & Hold1 & Hnew1) (Hlen2 & Hold2 & Hnew2).
  split_and!; [lia|..].
  - intros x o3 Hx H3.
    destruct (Hold2 x o3) as (o2 & H2 & Hr2); [lia|done|].
    destruct (Hold1 x o2) as (o1 & H1 & Hr1); [done..|].
    exists o1. split; [done|]. intros y Hy.
    destruct (Hr2 y Hy) as [Hy2|Hy2]; [|right; lia].
    apply Hr1, Hy2.
  - intros x o3 y Hx H3 Hy.
    destruct (decide (x < List.length h2)) as [Hlt|Hge].
    + destruct (Hold2 x o3) as (o2 & H2 & Hr2); [done..|].
      destruct (Hr2 y Hy) as [Hy2|Hy2]; [|lia].
      by apply (Hnew1 x o2 y).
    + assert (List.length h2 ≤ y) by (apply (Hnew2 x o3 y); [lia|done..]).
      lia.
Qed.

(** In a grown store an old instance is below old instances only, and by
    references the store had before. *)
Lemma grows_reach_old h h' a x :
  grows h h' → reach h' a x → x < List.length h →
  a < List.length h ∧ reach h a x.
Proof.
  intros (Hlen & Hold & Hnew) Hr Hx.
  induction Hr as [|l o' l' x Hl Hin Hr IH]; [split; [done|constructor]|].
  destruct (IH Hx) as [Hl' Hr'].
  destruct (decide (l < List.length h)) as [Hlt|Hge].
  - split; [done|]. destruct (Hold l o' Hlt Hl) as (o & Ho & Hrefs).
    destruct (Hrefs l' Hin) as [Hin'|?]; [|lia].
    eapply reach_step; eauto.
  - assert (List.length h ≤ l') by (apply (Hnew l o' l'); [lia|done..]).
    lia.
Qed.

Lemma grows_reach_new h h' a x :
  grows h h' → reach h' a x → List.length h ≤ a → List.length h ≤ x.
Proof.
  intros Hg Hr Ha.
  destruct (decide (x < List.length h)) as [Hlt|]; [|lia].
  destruct (grows_reach_old h h' a x Hg Hr Hlt). lia.
Qed.

Lemma fresh_cells_refl h : fresh_cells h h.
Proof.
  split; [done|]. intros x' o' y Hx Hl. apply lookup_lt_Some in Hl. lia.
Qed.

Lemma fresh_cells_closed hb h : closed hb → fresh_cells hb h → closed h.
Proof.
  intros Hc [Hpre Hfresh] l o y Hl Hy.
  destruct (decide (l < List.length hb)) as [Hlt|Hge].
  - pose proof (prefix_length _ _ Hpre).
    rewrite <- (prefix_lookup_lt _ _ _ Hlt Hpre) in Hl.
    pose proof (Hc l o y Hl Hy). lia.
  - apply (Hfresh l o y); [lia|done..].
Qed.

Lemma fresh_cells_grows hb h : fresh_cells hb h → grows hb h.
Proof.
  intros [Hpre Hfresh]. split_and!.
  - by apply prefix_length.
  - intros x o' Hx Hl. rewrite <- (prefix_lookup_lt _ _ _ Hx Hpre) in Hl.
    exists o'. split; [done|]. by left.
  - intros x o' y Hx Hl Hy. by apply (Hfresh x o' y).
Qed.

(** ** [deepcopy] *)

Lemma ren_lookup (m : memo) x x' : m !! x = Some x' → ren m x = x'.
Proof. unfold ren. by intros ->. Qed.

Lemma ren_mono (m m' : memo) y :
  m ⊆ m' → is_Some (m !! y) → ren m' y = ren m y.
Proof.
  intros Hsub [y' Hy]. rewrite (ren_lookup m y y' Hy).
  apply ren_lookup. by eapply lookup_weaken.
Qed.

Lemma fmap_ren_mono (m m' : memo) (ys : list loc) :
  m ⊆ m' → (∀ y, y ∈ ys → is_Some (m !! y)) →
  ren m' <$> ys = ren m <$> ys.
Proof.
  intros Hsub Hys. apply list_fmap_ext. intros i y Hi.
  apply ren_mono; [done|]. apply Hys. by eapply list_elem_of_lookup_2.
Qed.

Lemma refs_rename m o : refs (rename m o) = ren m <$> refs o.
Proof.
  destruct o as [ms ops nm|ms ops nm|gb ops nm gs|v nm t|]; simpl; try done.
  rewrite fmap_app. f_equal.
  induction gs as [|[k c] gs IH]; [done|].
  simpl. rewrite fmap_app. by f_equal.
Qed.

Lemma rename_mono (m m' : memo) o :
  m ⊆ m' → (∀ y, y ∈ refs o → is_Some (m !! y)) →
  rename m' o = rename m o.
Proof.
  intros Hsub Hrefs.
  destruct o as [ms ops nm|ms ops nm|gb ops nm gs|v nm t|]; simpl in *;
    try done.
  - by rewrite (fmap_ren_mono m m' ops).
  - by rewrite (fmap_ren_mono m m' ops).
  - f_equal.
    + apply fmap_ren_mono; [done|]. intros y Hy. apply Hrefs.
      apply elem_of_app. by left.
    + apply list_fmap_ext. intros i [k c] Hi. simpl. f_equal.
      apply fmap_ren_mono; [done|]. intros y Hy. apply Hrefs.
      apply elem_of_app. right. apply list_elem_of_join.
      exists c. split; [done|]. apply list_elem_of_fmap.
      exists (k, c). split; [done|]. by eapply list_elem_of_lookup_2.
Qed.

Lemma copied_mono hb (m m' : memo) h h' x x' :
  copied hb m h x x' → m ⊆ m' → h' !! x' = h !! x' →
  copied hb m' h' x x'.
Proof.
  intros (o & Ho & Hx' & Hrefs) Hsub Hsame. exists o. split_and!; [done|..].
  - by rewrite Hsame, (rename_mono m m').
  - intros y Hy. destruct (Hrefs y Hy) as [y' Hy']. exists y'.
    by eapply lookup_weaken.
Qed.

(** A memo that lacks an instance of [hb] has fewer entries than [hb]
    has instances. *)
Lemma memo_size_lt (B : nat) (m : memo) l :
  (∀ x, is_Some (m !! x) → x < B) → m !! l = None → l < B → size m < B.
Proof.
  intros Hdom Hl HlB.
  assert (dom m ⊆ (set_seq 0 B : gset nat) ∖ {[l]}) as Hsub.
  { intros x Hx. apply elem_of_dom in Hx. apply elem_of_difference. split.
    - apply elem_of_set_seq. split; [lia|]. simpl. by apply Hdom.
    - intros ->%elem_of_singleton. rewrite Hl in Hx. by destruct Hx. }
  apply subseteq_size in Hsub. rewrite size_dom in Hsub.
  rewrite size_difference in Hsub.
  - rewrite size_set_seq, size_singleton in Hsub.
    eapply Nat.le_lt_trans; [exact Hsub|lia].
  - intros x ->%elem_of_singleton. apply elem_of_set_seq. lia.
Qed.

Lemma copy_post_refl hb (m : memo) h : memo_bounds hb m h → copy_post hb m h m h.
Proof.
  intros Hb. split_and!; [done..|]. intros x x' Hx Hn. congruence.
Qed.

Lemma copy_post_trans hb (m m1 m2 : memo) h h1 h2 :
  h `prefix_of` h1 → h1 `prefix_of` h2 →
  copy_post hb m h m1 h1 → copy_post hb m1 h1 m2 h2 →
  copy_post hb m h m2 h2.
Proof.
  intros Hp1 Hp2 (Hs1 & Hb1 & Hn1) (Hs2 & Hb2 & Hn2).
  split_and!; [by etrans|done|].
  intros x x' Hx Hn. destruct (m1 !! x) as [x1|] eqn:H1.
  - assert (x1 = x') as ->.
    { pose proof (lookup_weaken _ _ _ _ H1 Hs2). congruence. }
    destruct (Hn1 x x' H1 Hn) as [Hlen Hcp]. split; [done|].
    eapply copied_mono; [done..|].
    symmetry. apply prefix_lookup_lt; [|done]. apply (Hb1 x x' H1).
  - destruct (Hn2 x x' Hx H1) as [Hlen Hcp]. split; [|done].
    pose proof (prefix_length _ _ Hp1). lia.
Qed.

Lemma prefix_insert_ge (h h1 : heap) l o :
  h `prefix_of` h1 → List.length h ≤ l → h `prefix_of` <[l := o]> h1.
Proof.
  intros [k ->] Hl. exists (<[l - List.length h := o]> k).
  by rewrite insert_app_r_alt.
Qed.

Lemma fresh_cells_insert hb (h : heap) l o :
  fresh_cells hb h → List.length hb ≤ l →
  (∀ y, y ∈ refs o → List.length hb ≤ y < List.length h) →
  fresh_cells hb (<[l := o]> h).
Proof.
  intros [Hp Hf] Hl Hrefs. split; [by apply prefix_insert_ge|].
  intros x' o' y Hx' Hlook Hy. rewrite length_insert.
  destruct (decide (l = x')) as [->|Hne].
  - assert (x' < List.length h) as Hlt.
    { apply lookup_lt_Some in Hlook. by rewrite length_insert in Hlook. }
    rewrite list_lookup_insert_eq in Hlook by done.
    injection Hlook as <-. by apply Hrefs.
  - rewrite list_lookup_insert_ne in Hlook; [|done]. by apply (Hf x' o' y).
Qed.

Lemma fresh_cells_alloc hb (h : heap) o :
  fresh_cells hb h →
  (∀ y, y ∈ refs o → List.length hb ≤ y < List.length h) →
  fresh_cells hb (h ++ [o]).
Proof.
  intros [Hp Hf] Hrefs. split; [by apply prefix_app_r|].
  intros x' o' y Hx' Hlook Hy. rewrite length_app. simpl.
  destruct (decide (x' < List.length h)) as [Hlt|Hge].
  - rewrite lookup_app_l in Hlook; [|done].
    pose proof (Hf x' o' y Hx' Hlook Hy). lia.
  - rewrite lookup_app_r in Hlook; [|lia].
    destruct (x' - List.length h) as [|i]; [|done].
    injection Hlook as <-. pose proof (Hrefs y Hy). lia.
Qed.

Lemma deepcopy_list_spec hb k f :
  copier hb k f →
  ∀ xs (m : memo) h r h',
    fresh_cells hb h → memo_bounds hb m h →
    (∀ x, x ∈ xs → x < List.length hb) →
    deepcopy_list f xs m h = (r, h') →
    fresh_cells hb h' ∧ h `prefix_of` h' ∧
    (List.length hb ≤ k + size m → ∃ p, r = Ok p) ∧
    (∀ ys m', r = Ok (ys, m') →
       ys = ren m' <$> xs ∧ (∀ x, x ∈ xs → is_Some (m' !! x)) ∧
       copy_post hb m h m' h').
Proof.
  intros Hf. induction xs as [|x xs IH]; intros m h r h' Hfc Hmb Hxs Hrun.
  - injection Hrun as <- <-. split_and!; [done|done|eauto|].
    intros ys m' [= <- <-]. split_and!; [done| |by apply copy_post_refl].
    intros x Hx. inversion Hx.
  - cbn [deepcopy_list] in Hrun. unfold bind at 1 in Hrun.
    destruct (f x m h) as [r1 h1] eqn:Hfx.
    destruct (Hf x m h r1 h1 Hfc Hmb) as (Hfc1 & Hp1 & Hterm1 & Hok1);
      [apply Hxs; left|done|].
    destruct r1 as [[y m1]|e| |];
      [|injection Hrun as <- <-; split_and!;
        [done|done|intros Hk; by destruct (Hterm1 Hk)|done]..].
    destruct (Hok1 y m1 eq_refl) as (Hy & Hpost1).
    unfold bind at 1 in Hrun.
    destruct (deepcopy_list f xs m1 h1) as [r2 h2] eqn:Hrest.
    destruct (IH m1 h1 r2 h2 Hfc1) as (Hfc2 & Hp2 & Hterm2 & Hok2);
      [apply Hpost1|intros; apply Hxs; by right|done|].
    assert (size m ≤ size m1) as Hsize
      by (apply map_subseteq_size, Hpost1).
    destruct r2 as [[ys m2]|e| |];
      [|injection Hrun as <- <-; split_and!;
        [done|by etrans|intros Hk; destruct Hterm2 as [? ?]; [lia|done]
        |done]..].
    injection Hrun as <- <-.
    destruct (Hok2 ys m2 eq_refl) as (Hys & Hdom & Hpost2).
    split_and!; [done|by etrans|eauto|].
    intros ys' m' [= <- <-]. split_and!.
    + rewrite fmap_cons, <- Hys. f_equal. symmetry. apply ren_lookup.
      eapply lookup_weaken; [done|apply Hpost2].
    + intros x' [->|Hx']%elem_of_cons; [|by apply Hdom].
      exists y. eapply lookup_weaken; [done|apply Hpost2].
    + by eapply copy_post_trans.
Qed.

Lemma deepcopy_dict_spec hb k f :
  copier hb k f →
  ∀ (gs : list (value * list loc)) (m : memo) h r h',
    fresh_cells hb h → memo_bounds hb m h →
    (∀ x, x ∈ mjoin (gs.*2) → x < List.length hb) →
    deepcopy_dict f gs m h = (r, h') →
    fresh_cells hb h' ∧ h `prefix_of` h' ∧
    (List.length hb ≤ k + size m → ∃ p, r = Ok p) ∧
    (∀ gs' m', r = Ok (gs', m') →
       gs' = (λ kc : value * list loc, (kc.1, ren m' <$> kc.2)) <$> gs ∧
       (∀ x, x ∈ mjoin (gs.*2) → is_Some (m' !! x)) ∧
       copy_post hb m h m' h').
Proof.
  intros Hf. induction gs as [|[key c] gs IH];
    intros m h r h' Hfc Hmb Hxs Hrun.
  - injection Hrun as <- <-. split_and!; [done|done|eauto|].
    intros ys m' [= <- <-]. split_and!; [done| |by apply copy_post_refl].
    intros x Hx. inversion Hx.
  - cbn [deepcopy_dict] in Hrun. unfold bind at 1 in Hrun.
    destruct (deepcopy_list f c m h) as [r1 h1] eqn:Hfx.
    destruct (deepcopy_list_spec hb k f Hf c m h r1 h1 Hfc Hmb)
      as (Hfc1 & Hp1 & Hterm1 & Hok1);
      [intros x Hx; apply Hxs; simpl; apply elem_of_app; by left|done|].
    destruct r1 as [[c' m1]|e| |];
      [|injection Hrun as <- <-; split_and!;
        [done|done|intros Hk; by destruct (Hterm1 Hk)|done]..].
    destruct (Hok1 c' m1 eq_refl) as (Hc' & Hdom1 & Hpost1).
    unfold bind at 1 in Hrun.
    destruct (deepcopy_dict f gs m1 h1) as [r2 h2] eqn:Hrest.
    destruct (IH m1 h1 r2 h2 Hfc1) as (Hfc2 & Hp2 & Hterm2 & Hok2);
      [apply Hpost1
      |intros x Hx; apply Hxs; simpl; apply elem_of_app; by right|done|].
    assert (size m ≤ size m1) as Hsize
      by (apply map_subseteq_size, Hpost1).
    destruct r2 as [[gs2 m2]|e| |];
      [|injection Hrun as <- <-; split_and!;
        [done|by etrans|intros Hk; destruct Hterm2 as [? ?]; [lia|done]
        |done]..].
    injection Hrun as <- <-.
    destruct (Hok2 gs2 m2 eq_refl) as (Hgs2 & Hdom2 & Hpost2).
    split_and!; [done|by etrans|eauto|].
    intros ys' m' [= <- <-]. split_and!.
    + rewrite fmap_cons, <- Hgs2. simpl. do 2 f_equal.
      rewrite Hc'. symmetry. apply fmap_ren_mono; [apply Hpost2|done].
    + intros x [Hx|Hx]%elem_of_app; [|by apply Hdom2].
      destruct (Hdom1 x Hx) as [x' Hx']. exists x'.
      eapply lookup_weaken; [done|apply Hpost2].
    + by eapply copy_post_trans.
Qed.

(** The last step of copying one instance: the blank instance made at the
    start receives the copied attributes. *)
Lemma copy_finish hb (m m1 : memo) h h1 l o :
  hb !! l = Some o → m !! l = None →
  fresh_cells hb h → memo_bounds hb m h →
  fresh_cells hb h1 → (h ++ [Blank]) `prefix_of` h1 →
  copy_post hb (<[l := List.length h]> m) (h ++ [Blank]) m1 h1 →
  (∀ y, y ∈ refs o → is_Some (m1 !! y)) →
  let h' := <[List.length h := rename m1 o]> h1 in
  fresh_cells hb h' ∧ h `prefix_of` h' ∧
  m1 !! l = Some (List.length h) ∧ copy_post hb m h m1 h'.
Proof.
  intros Ho Hml Hfc Hmb Hfc1 Hp1 (Hsub & Hmb1 & Hnew) Hrefs h'.
  assert (List.length hb ≤ List.length h) as Hlen
    by apply prefix_length, Hfc.
  assert (List.length h < List.length h1) as Hlen1.
  { apply prefix_length in Hp1. rewrite length_app in Hp1. simpl in Hp1.
    lia. }
  assert (m1 !! l = Some (List.length h)) as Hl1.
  { eapply lookup_weaken; [|done]. apply lookup_insert_eq. }
  assert (h `prefix_of` h1) as Hp.
  { etrans; [|done]. by apply prefix_app_r. }
  split_and!; [| |done|].
  - apply fresh_cells_insert; [done..|].
    intros y Hy. rewrite refs_rename in Hy.
    apply list_elem_of_fmap in Hy as (y0 & -> & Hy0).
    destruct (Hrefs y0 Hy0) as [y' Hy'].
    rewrite (ren_lookup m1 y0 y' Hy'). apply (Hmb1 y0 y' Hy').
  - by apply prefix_insert_ge.
  - split_and!.
    + etrans; [|done]. by apply insert_subseteq.
    + intros x x' Hx. unfold h'. rewrite length_insert. by apply Hmb1.
    + intros x x' Hx Hn. destruct (decide (x = l)) as [->|Hne].
      * assert (x' = List.length h) as -> by congruence.
        split; [done|]. exists o. split_and!; [done| |done].
        unfold h'. by rewrite list_lookup_insert_eq.
      * destruct (Hnew x x' Hx) as [Hx' Hcp].
        { by rewrite lookup_insert_ne. }
        rewrite length_app in Hx'. simpl in Hx'. split; [lia|].
        eapply copied_mono; [done..|]. unfold h'.
        apply list_lookup_insert_ne. lia.
Qed.

Lemma deepcopy_op_spec hb : closed hb → ∀ n, copier hb n (deepcopy_op n).
Proof.
  intros Hc n. induction n as [|n IH]; intros l m h r h' Hfc Hmb Hl Hrun.
  - cbn [deepcopy_op] in Hrun.
    destruct (m !! l) as [l'|] eqn:Hml.
    + injection Hrun as <- <-. split_and!; [done|done|eauto|].
      intros ? ? [= <- <-]. split; [done|by apply copy_post_refl].
    + injection Hrun as <- <-. split_and!; [done|done| |done].
      intros Hk. exfalso.
      assert (size m < List.length hb); [|lia].
      apply (memo_size_lt _ m l); [|done..].
      intros x [x' Hx]. apply (Hmb x x' Hx).
  - cbn [deepcopy_op] in Hrun.
    destruct (m !! l) as [l'|] eqn:Hml.
    { injection Hrun as <- <-. split_and!; [done|done|eauto|].
      intros ? ? [= <- <-]. split; [done|by apply copy_post_refl]. }
    destruct (lookup_lt_is_Some_2 hb l Hl) as [o Ho].
    assert (h !! l = Some o) as Hho.
    { eapply prefix_lookup_Some; [done|apply Hfc]. }
    assert (List.length hb ≤ List.length h) as Hlen
      by apply prefix_length, Hfc.
    set (l0 := List.length h) in *.
    set (m0 := <[l := l0]> m) in *.
    set (ha := h ++ [Blank]).
    assert (fresh_cells hb ha) as Hfca.
    { apply fresh_cells_alloc; [done|]. intros y Hy. inversion Hy. }
    assert (memo_bounds hb m0 ha) as Hmba.
    { intros x x' Hx. unfold ha. rewrite length_app. simpl.
      destruct (decide (x = l)) as [->|Hne].
      - unfold m0 in Hx. rewrite lookup_insert_eq in Hx.
        injection Hx as <-. unfold l0. lia.
      - unfold m0 in Hx. rewrite lookup_insert_ne in Hx by done.
        pose proof (Hmb x x' Hx). lia. }
    assert (size m0 = S (size m)) as Hsz
      by (by apply map_size_insert_None).
    assert (∀ y, y ∈ refs o → y < List.length hb) as Hrefs
      by (intros y Hy; by apply (Hc l o y)).
    unfold bind at 1, deref in Hrun. rewrite Hho in Hrun.
    unfold bind at 1, alloc in Hrun. fold l0 ha m0 in Hrun.
    destruct o as [ms ops nm|ms ops nm|gb ops nm gs|v nm t|].
    + unfold bind at 1 in Hrun.
      destruct (deepcopy_list (deepcopy_op n) ops m0 ha) as [r1 h1] eqn:Hl1.
      destruct (deepcopy_list_spec hb n _ IH ops m0 ha r1 h1 Hfca Hmba)
        as (Hfc1 & Hp1 & Hterm1 & Hok1); [done..|].
      destruct r1 as [[ops' m1]|e| |];
        [|injection Hrun as <- <-; split_and!;
          [done|etrans; [by apply prefix_app_r|done]
          |intros Hk; destruct Hterm1 as [? ?]; [lia|done]|done]..].
      destruct (Hok1 ops' m1 eq_refl) as (Hops' & Hdom1 & Hpost1).
      injection Hrun as <- <-.
      destruct (copy_finish hb m m1 h h1 l (Matcher ms ops nm))
        as (Hfc' & Hp' & Hl' & Hpost'); [done..|].
      simpl in Hfc', Hp', Hpost'. rewrite <- Hops' in *.
      split_and!; [done|done|eauto|].
      by intros ? ? [= <- <-].
    + unfold bind at 1 in Hrun.
      destruct (deepcopy_list (deepcopy_op n) ops m0 ha) as [r1 h1] eqn:Hl1.
      destruct (deepcopy_list_spec hb n _ IH ops m0 ha r1 h1 Hfca Hmba)
        as (Hfc1 & Hp1 & Hterm1 & Hok1); [done..|].
      destruct r1 as [[ops' m1]|e| |];
        [|injection Hrun as <- <-; split_and!;
          [done|etrans; [by apply prefix_app_r|done]
          |intros Hk; destruct Hterm1 as [? ?]; [lia|done]|done]..].
      destruct (Hok1 ops' m1 eq_refl) as (Hops' & Hdom1 & Hpost1).
      injection Hrun as <- <-.
      destruct (copy_finish hb m m1 h h1 l (Filter ms ops nm))
        as (Hfc' & Hp' & Hl' & Hpost'); [done..|].
      simpl in Hfc', Hp', Hpost'. rewrite <- Hops' in *.
      split_and!; [done|done|eauto|].
      by intros ? ? [= <- <-].
    + unfold bind at 1 in Hrun.
      destruct (deepcopy_list (deepcopy_op n) ops m0 ha) as [r1 h1] eqn:Hl1.
      destruct (deepcopy_list_spec hb n _ IH ops m0 ha r1 h1 Hfca Hmba)
        as (Hfc1 & Hp1 & Hterm1 & Hok1);
        [intros y Hy; apply Hrefs; simpl; apply elem_of_app; by left|done|].
      destruct r1 as [[ops' m1]|e| |];
        [|injection Hrun as <- <-; split_and!;
          [done|etrans; [by apply prefix_app_r|done]
          |intros Hk; destruct Hterm1 as [? ?]; [lia|done]|done]..].
      destruct (Hok1 ops' m1 eq_refl) as (Hops' & Hdom1 & Hpost1).
      unfold bind at 1 in Hrun.
      destruct (deepcopy_dict (deepcopy_op n) gs m1 h1) as [r2 h2] eqn:Hd2.
      destruct (deepcopy_dict_spec hb n _ IH gs m1 h1 r2 h2 Hfc1)
        as (Hfc2 & Hp2 & Hterm2 & Hok2);
        [apply Hpost1
        |intros y Hy; apply Hrefs; simpl; apply elem_of_app; by right
        |done|].
      assert (size m0 ≤ size m1) as Hsize
        by (apply map_subseteq_size, Hpost1).
      destruct r2 as [[gs' m2]|e| |];
        [|injection Hrun as <- <-; split_and!;
          [done|etrans; [by apply prefix_app_r|by etrans]
          |intros Hk; destruct Hterm2 as [? ?]; [lia|done]|done]..].
      destruct (Hok2 gs' m2 eq_refl) as (Hgs' & Hdom2 & Hpost2).
      injection Hrun as <- <-.
      destruct (copy_finish hb m m2 h h2 l (Grouper gb ops nm gs))
        as (Hfc' & Hp' & Hl' & Hpost'); [done..|by etrans
          |by eapply copy_post_trans| |].
      { intros y [Hy|Hy]%elem_of_app; [|by apply Hdom2].
        destruct (Hdom1 y Hy) as [y' Hy']. exists y'.
        eapply lookup_weaken; [done|apply Hpost2]. }
      assert (ren m2 <$> ops = ops') as Hops2.
      { rewrite Hops'. apply fmap_ren_mono; [apply Hpost2|done]. }
      simpl in Hfc', Hp', Hpost'.
      rewrite <- Hgs', Hops2 in Hfc', Hp', Hpost'.
      split_and!; [done|done|eauto|].
      by intros ? ? [= <- <-].
    + injection Hrun as <- <-.
      destruct (copy_finish hb m m0 h ha l (Summer v nm t))
        as (Hfc' & Hp' & Hl' & Hpost');
        [done..|by apply copy_post_refl|intros y Hy; inversion Hy|].
      simpl in Hfc', Hp', Hpost'.
      split_and!; [done|done|eauto|].
      by intros ? ? [= <- <-].
    + injection Hrun as <- <-. subst l0 m0 ha.
      destruct (copy_finish hb m (<[l := List.length h]> m) h
                  (h ++ [Blank]) l Blank)
        as (Hfc' & Hp' & Hl' & Hpost');
        [done..|by apply copy_post_refl|intros y Hy; inversion Hy|].
      assert (<[List.length h := Blank]> (h ++ [Blank]) = h ++ [Blank])
        as Hid.
      { apply list_insert_id.
        by rewrite lookup_app_r, Nat.sub_diag by lia. }
      cbn [rename] in Hfc', Hp', Hpost'.
      rewrite Hid in Hfc', Hp', Hpost'.
      split_and!; [done|done|eauto|].
      by intros ? ? [= <- <-].
Qed.

Lemma memo_reach_closed h (m : memo) h1 l x :
  (∀ y y', m !! y = Some y' → copied h m h1 y y') →
  is_Some (m !! l) → reach h l x → is_Some (m !! x).
Proof.
  intros Hcp Hl Hr. induction Hr as [|l o l' x Ho Hin _ IH]; [done|].
  apply IH. destruct Hl as [l1 Hl1].
  destruct (Hcp l l1 Hl1) as (o0 & Ho0 & _ & Hrefs).
  apply Hrefs. congruence.
Qed.

(** [deepcopy(self.operators)]: whatever the outcome, the store only
    gains instances that refer to each other; with fuel for every instance
    of the store the copy is made, and it is a deep clone. *)
Lemma deepcopy_spec n ops h r h1 :
  closed h → (∀ x, x ∈ ops → x < List.length h) →
  deepcopy n ops h = (r, h1) →
  fresh_cells h h1 ∧
  (List.length h ≤ n → ∃ c, r = Ok c) ∧
  (∀ c, r = Ok c →
     deep_clone h ops h1 c ∧
     ∀ y, y ∈ c → List.length h ≤ y < List.length h1).
Proof.
  intros Hc Hops Hrun. unfold deepcopy, bind in Hrun.
  destruct (deepcopy_list (deepcopy_op n) ops ∅ h) as [r1 h'] eqn:Hl.
  destruct (deepcopy_list_spec h n _ (deepcopy_op_spec h Hc n)
              ops ∅ h r1 h') as (Hfc & Hp & Hterm & Hok);
    [apply fresh_cells_refl|by intros x x' Hx|done..|].
  destruct r1 as [[c m]|e| |];
    [|injection Hrun as <- ->; split_and!;
      [done|intros Hk; destruct Hterm as [? ?]; [lia|done]|done]..].
  injection Hrun as <- ->.
  destruct (Hok c m eq_refl) as (Hcm & Hdom & Hsub & Hmb & Hnew).
  split_and!; [done|eauto|]. intros c' [= <-].
  assert (∀ y y', m !! y = Some y' → copied h m h1 y y') as Hcp.
  { intros y y' Hy. by apply Hnew. }
  split.
  - exists m. split_and!; [done..|].
    intros x (l & Hl' & Hr).
    destruct (memo_reach_closed h m h1 l x Hcp (Hdom l Hl') Hr) as [x' Hx'].
    destruct (Hcp x x' Hx') as (o & Ho & Ho' & _).
    exists x', o. split_and!; [done| |done..]. apply (Hmb x x' Hx').
  - intros y Hy. rewrite Hcm in Hy.
    apply list_elem_of_fmap in Hy as (y0 & -> & Hy0).
    destruct (Hdom y0 Hy0) as [y' Hy'].
    rewrite (ren_lookup m y0 y' Hy'). apply (Hmb y0 y' Hy').
Qed.

Lemma initial_rename m o : initial (rename m o) ↔ initial o.
Proof.
  destruct o as [ms ops nm|ms ops nm|gb ops nm gs|v nm t|]; simpl; try done.
  by destruct gs.
Qed.

(** A deep clone of operators in their initial state is in its initial
    state. *)
Lemma deep_clone_initial h ops h1 c :
  deep_clone h ops h1 c →
  (∀ x o, reach_from h ops x → h !! x = Some o → initial o) →
  ∀ x' o', reach_from h1 c x' → h1 !! x' = Some o' → initial o'.
Proof.
  intros (m & Hp & Hc & Hcopy) Hinit x' o' (l' & Hl' & Hr) Ho'.
  assert (∃ x, reach_from h ops x ∧ m !! x = Some x') as (x & Hx & Hmx).
  { rewrite Hc in Hl'. apply list_elem_of_fmap in Hl' as (l & -> & Hl).
    assert (reach_from h ops l) as Hrl by (exists l; split; [done|constructor]).
    destruct (Hcopy l Hrl) as (l1 & ol & Hml & _).
    rewrite (ren_lookup m l l1 Hml) in Hr.
    clear Ho' Hl. revert l Hrl Hml.
    induction Hr as [l1|l1 o1 y' x' Ho1 Hin Hr IH]; intros l Hrl Hml.
    - by exists l.
    - destruct (Hcopy l Hrl) as (l2 & ol' & Hml2 & _ & Hol & Ho1').
      assert (l2 = l1) as -> by congruence.
      assert (o1 = rename m ol') as -> by congruence.
      rewrite refs_rename in Hin.
      apply list_elem_of_fmap in Hin as (y & -> & Hy).
      assert (reach_from h ops y) as Hry.
      { destruct Hrl as (l0 & Hl0 & Hr0). exists l0. split; [done|].
        eapply reach_trans; [done|]. eapply reach_step; [done..|constructor]. }
      destruct (Hcopy y Hry) as (y1 & oy & Hmy & _).
      apply (IH y Hry). by rewrite (ren_lookup m y y1 Hmy). }
  destruct (Hcopy x Hx) as (x1 & o & Hmx1 & _ & Ho & Ho1).
  assert (x1 = x') as -> by congruence.
  assert (o' = rename m o) as -> by congruence.
  apply initial_rename. by eapply Hinit.
Qed.

(** ** [run] and the store *)

Lemma py_eq_refl k : py_eq k k = true.
Proof.
  destruct k as [z|b|s|]; simpl; [by apply Z.eqb_refl|by destruct b
    |by apply String.eqb_refl|done].
Qed.

Lemma dict_set_new {A} (d : list (value * A)) k a :
  dict_get d k = None → dict_set d k a = d ++ [(k, a)].
Proof.
  induction d as [|[k' a'] d IH]; [done|]. simpl.
  destruct (py_eq k' k); [done|]. intros Hd. by rewrite IH.
Qed.

Lemma dict_get_new {A} (d : list (value * A)) k a :
  dict_get d k = None → dict_get (d ++ [(k, a)]) k = Some a.
Proof.
  induction d as [|[k' a'] d IH]; simpl.
  - by rewrite py_eq_refl.
  - destruct (py_eq k' k); [done|]. apply IH.
Qed.

Lemma dict_get_lookup {A} (d : list (value * A)) k a :
  dict_get d k = Some a →
  ∃ i k', d !! i = Some (k', a) ∧ py_eq k' k = true.
Proof.
  induction d as [|[k' a'] d IH]; [done|]. simpl.
  destruct (py_eq k' k) eqn:Hk.
  - intros [= ->]. by exists 0, k'.
  - intros Hd. destruct (IH Hd) as (i & k1 & Hi & Hk1). by exists (S i), k1.
Qed.

Lemma all_match_heap ms data h : (all_match ms data h).2 = h.
Proof.
  induction ms as [|[label v] ms IH]; [done|]. rewrite all_match_cons.
  destruct (data !! label) as [x|]; [|done]. by destruct (py_eq x v).
Qed.

(** [Grouper.run] on a record whose key has a group. *)
Lemma run_Grouper_old n data l h gb ops nm gs k c :
  h !! l = Some (Grouper gb ops nm gs) → data !! gb = Some k →
  dict_get gs k = Some c →
  run (S n) data l h = for_each (run n data) c h.
Proof.
  intros Hl Hk Hc. cbn [run]. unfold bind at 1, deref. rewrite Hl.
  unfold bind at 1, getitem. rewrite Hk. unfold ret at 1.
  unfold dict_contains. rewrite Hc. cbn [negb].
  unfold bind at 1, ret at 1.
  unfold bind at 1, getitem_groups, bind at 1, deref. rewrite Hl.
  by rewrite Hc.
Qed.

(** [Grouper.run] on the first record of a key. *)
Lemma run_Grouper_new n data l h gb ops nm gs k r1 h1 :
  h !! l = Some (Grouper gb ops nm gs) → data !! gb = Some k →
  dict_get gs k = None →
  deepcopy n ops h = (r1, h1) → h `prefix_of` h1 →
  run (S n) data l h
  = match r1 with
    | Ok c =>
        for_each (run n data) c
          (<[l := Grouper gb ops nm (gs ++ [(k, c)])]> h1)
    | Raise e => (Raise e, h1)
    | OutOfFuel => (OutOfFuel, h1)
    | Dangling => (Dangling, h1)
    end.
Proof.
  intros Hl Hk Hc Hcopy Hp. cbn [run]. unfold bind at 1, deref. rewrite Hl.
  unfold bind at 1, getitem. rewrite Hk. unfold ret at 1.
  unfold dict_contains. rewrite Hc. cbn [negb].
  unfold bind at 1. unfold bind at 1. rewrite Hcopy.
  destruct r1 as [c|e| |]; try done.
  assert (h1 !! l = Some (Grouper gb ops nm gs)) as Hl1
    by (by eapply prefix_lookup_Some).
  unfold setitem_groups, bind at 1, deref. rewrite Hl1.
  unfold store. unfold bind at 1, getitem_groups, bind at 1, deref.
  rewrite list_lookup_insert_eq by (by eapply lookup_lt_Some).
  rewrite (dict_set_new gs k c Hc), (dict_get_new gs k c Hc). done.
Qed.

Lemma run_Grouper_no_key n data l h gb ops nm gs :
  h !! l = Some (Grouper gb ops nm gs) → data !! gb = None →
  run (S n) data l h = (Raise KeyError, h).
Proof.
  intros Hl Hk. cbn [run]. unfold bind at 1, deref. rewrite Hl.
  unfold bind at 1, getitem. by rewrite Hk.
Qed.

Lemma closed_insert (h : heap) l o o' :
  closed h → h !! l = Some o → (∀ y, y ∈ refs o' → y ∈ refs o) →
  closed (<[l := o']> h) ∧ grows h (<[l := o']> h).
Proof.
  intros Hc Hl Hrefs. split.
  - intros x ox y Hx Hy. rewrite length_insert.
    destruct (decide (l = x)) as [->|Hne].
    + rewrite list_lookup_insert_eq in Hx by (by eapply lookup_lt_Some).
      injection Hx as <-. eapply Hc; [done|]. by apply Hrefs.
    + rewrite list_lookup_insert_ne in Hx by done. by eapply Hc.
  - split_and!.
    + by rewrite length_insert.
    + intros x ox Hlt Hx. destruct (decide (l = x)) as [->|Hne].
      * rewrite list_lookup_insert_eq in Hx by done.
        injection Hx as <-. exists o. split; [done|].
        intros y Hy. left. by apply Hrefs.
      * rewrite list_lookup_insert_ne in Hx by done.
        exists ox. split; [done|]. by left.
    + intros x ox y Hge Hx. apply lookup_lt_Some in Hx.
      rewrite length_insert in Hx. lia.
Qed.

(** The store after [self.groups[k] = deepcopy(self.operators)]. *)
Lemma install_clone (h h1 : heap) l gb ops nm gs k c :
  closed h → fresh_cells h h1 →
  h !! l = Some (Grouper gb ops nm gs) →
  (∀ y, y ∈ c → List.length h ≤ y < List.length h1) →
  closed (<[l := Grouper gb ops nm (gs ++ [(k, c)])]> h1) ∧
  grows h (<[l := Grouper gb ops nm (gs ++ [(k, c)])]> h1).
Proof.
  intros Hc Hfc Hl Hcb.
  pose proof (fresh_cells_closed h h1 Hc Hfc) as Hc1.
  pose proof (fresh_cells_grows h h1 Hfc) as (Hlen & Hold & Hnew).
  assert (l < List.length h) as Hll by (by eapply lookup_lt_Some).
  assert (h1 !! l = Some (Grouper gb ops nm gs)) as Hl1.
  { eapply prefix_lookup_Some; [done|apply Hfc]. }
  assert (∀ y, y ∈ refs (Grouper gb ops nm (gs ++ [(k, c)])) →
               y ∈ refs (Grouper gb ops nm gs) ∨ y ∈ c) as Hrefs.
  { intros y. simpl. rewrite fmap_app, join_app. simpl.
    rewrite app_nil_r, !elem_of_app. tauto. }
  split.
  - intros x ox y Hx Hy. rewrite length_insert.
    destruct (decide (l = x)) as [->|Hne].
    + rewrite list_lookup_insert_eq in Hx by lia.
      injection Hx as <-. destruct (Hrefs y Hy) as [Hy'|Hy'].
      * by eapply Hc1.
      * by apply Hcb.
    + rewrite list_lookup_insert_ne in Hx by done. by eapply Hc1.
  - split_and!.
    + rewrite length_insert. lia.
    + intros x ox Hlt Hx. destruct (decide (l = x)) as [->|Hne].
      * rewrite list_lookup_insert_eq in Hx by lia.
        injection Hx as <-. exists (Grouper gb ops nm gs). split; [done|].
        intros y Hy. destruct (Hrefs y Hy) as [Hy'|Hy']; [by left|].
        right. by apply Hcb.
      * rewrite list_lookup_insert_ne in Hx by done. by apply Hold.
    + intros x ox y Hge Hx Hy.
      rewrite list_lookup_insert_ne in Hx by lia. by eapply Hnew.
Qed.

Lemma for_each_grows {A} (body : A → M unit) :
  (∀ x h r h', closed h → body x h = (r, h') → closed h' ∧ grows h h') →
  ∀ xs h r h', closed h → for_each body xs h = (r, h') →
    closed h' ∧ grows h h'.
Proof.
  intros Hbody. induction xs as [|x xs IH]; intros h r h' Hc Hrun.
  - injection Hrun as <- <-. split; [done|apply grows_refl].
  - cbn [for_each] in Hrun. unfold bind at 1 in Hrun.
    destruct (body x h) as [r1 h1] eqn:Hb.
    destruct (Hbody x h r1 h1 Hc Hb) as [Hc1 Hg1].
    destruct r1 as [[]|e| |]; [|by injection Hrun as <- <-..].
    destruct (IH h1 r h' Hc1 Hrun) as [Hc' Hg']. split; [done|].
    by eapply grows_trans.
Qed.

Lemma dict_get_refs {A} (gs : list (value * list A)) k c y :
  dict_get gs k = Some c → y ∈ c → y ∈ mjoin (gs.*2).
Proof.
  intros Hd Hy. destruct (dict_get_lookup gs k c Hd) as (i & k' & Hi & _).
  apply list_elem_of_join. exists c. split; [done|].
  apply list_elem_of_fmap. exists (k', c). split; [done|].
  by eapply list_elem_of_lookup_2.
Qed.

(** Every [run] leaves a closed store closed and only makes it grow. *)
Lemma run_grows n data :
  ∀ l h r h', closed h → run n data l h = (r, h') →
    closed h' ∧ grows h h'.
Proof.
  induction n as [|n IH]; intros l h r h' Hc Hrun.
  { injection Hrun as <- <-. split; [done|apply grows_refl]. }
  destruct (h !! l) as [o|] eqn:Hl.
  2:{ cbn [run] in Hrun. unfold bind, deref in Hrun. rewrite Hl in Hrun.
      injection Hrun as <- <-. split; [done|apply grows_refl]. }
  destruct o as [ms ops nm|ms ops nm|gb ops nm gs|v nm t|].
  - rewrite (run_gate n data l false ms ops nm h Hl) in Hrun.
    unfold bind in Hrun. pose proof (all_match_heap ms data h) as Hh.
    destruct (all_match ms data h) as [rb hb]. simpl in Hh. subst hb.
    destruct rb as [[]|e| |]; simpl in Hrun;
      try (injection Hrun as <- <-; split; [done|apply grows_refl]).
    by eapply (for_each_grows _ IH).
  - rewrite (run_gate n data l true ms ops nm h Hl) in Hrun.
    unfold bind in Hrun. pose proof (all_match_heap ms data h) as Hh.
    destruct (all_match ms data h) as [rb hb]. simpl in Hh. subst hb.
    destruct rb as [[]|e| |]; simpl in Hrun;
      try (injection Hrun as <- <-; split; [done|apply grows_refl]).
    by eapply (for_each_grows _ IH).
  - destruct (data !! gb) as [k|] eqn:Hk.
    2:{ rewrite (run_Grouper_no_key n data l h gb ops nm gs Hl Hk) in Hrun.
        injection Hrun as <- <-. split; [done|apply grows_refl]. }
    destruct (dict_get gs k) as [c|] eqn:Hd.
    { rewrite (run_Grouper_old n data l h gb ops nm gs k c Hl Hk Hd) in Hrun.
      by eapply (for_each_grows _ IH). }
    destruct (deepcopy n ops h) as [r1 h1] eqn:Hcopy.
    destruct (deepcopy_spec n ops h r1 h1 Hc) as (Hfc & _ & Hok); [|done|].
    { intros y Hy. apply (Hc l _ y Hl). simpl. apply elem_of_app. by left. }
    rewrite (run_Grouper_new n data l h gb ops nm gs k r1 h1 Hl Hk Hd Hcopy)
      in Hrun by apply Hfc.
    destruct r1 as [c|e| |];
      try (injection Hrun as <- <-; split;
           [by eapply fresh_cells_closed|by apply fresh_cells_grows]).
    destruct (Hok c eq_refl) as [_ Hcb].
    destruct (install_clone h h1 l gb ops nm gs k c Hc Hfc Hl Hcb)
      as [Hc2 Hg2].
    destruct (for_each_grows _ IH c _ r h' Hc2 Hrun) as [Hc' Hg'].
    split; [done|]. by eapply grows_trans.
  - destruct (run_Summer_store n data v nm t l h r h' Hl Hrun)
      as [->|[t' ->]]; [split; [done|apply grows_refl]|].
    by eapply closed_insert.
  - cbn [run] in Hrun. unfold bind, deref in Hrun. rewrite Hl in Hrun.
    injection Hrun as <- <-. split; [done|apply grows_refl].
Qed.

Lemma for_each_run_frame n data :
  (∀ l h r h', closed h → run n data l h = (r, h') →
     ∀ x, x < List.length h → ¬ reach h l x → h' !! x = h !! x) →
  ∀ xs h r h', closed h → for_each (run n data) xs h = (r, h') →
    ∀ x, x < List.length h → (∀ c, c ∈ xs → ¬ reach h c x) →
      h' !! x = h !! x.
Proof.
  intros Hframe. induction xs as [|c xs IH]; intros h r h' Hc Hrun x Hx Hnr.
  - by injection Hrun as <- <-.
  - cbn [for_each] in Hrun. unfold bind at 1 in Hrun.
    destruct (run n data c h) as [r1 h1] eqn:Hb.
    destruct (run_grows n data c h r1 h1 Hc Hb) as [Hc1 Hg1].
    assert (h1 !! x = h !! x) as H1.
    { eapply Hframe; [done..|]. apply Hnr. by left. }
    destruct r1 as [[]|e| |]; [|by injection Hrun as <- <-..].
    rewrite <- H1. apply (IH h1 r h' Hc1 Hrun).
    + destruct Hg1 as [Hlen _]. lia.
    + intros c' Hc' Hr.
      destruct (grows_reach_old h h1 c' x Hg1 Hr Hx) as [_ Hr'].
      apply (Hnr c'); [by right|done].
Qed.

(** [run] changes no instance of the store that is not below the
    operator it is called on. *)
Lemma run_frame n data :
  ∀ l h r h', closed h → run n data l h = (r, h') →
    ∀ x, x < List.length h → ¬ reach h l x → h' !! x = h !! x.
Proof.
  induction n as [|n IH]; intros l h r h' Hc Hrun x Hx Hnr.
  { by injection Hrun as <- <-. }
  destruct (h !! l) as [o|] eqn:Hl.
  2:{ cbn [run] in Hrun. unfold bind, deref in Hrun. rewrite Hl in Hrun.
      by injection Hrun as <- <-. }
  assert (∀ c, c ∈ refs o → ¬ reach h c x) as Hchild.
  { intros c Hin Hr. apply Hnr. by eapply reach_step. }
  assert (l ≠ x) as Hne by (intros ->; apply Hnr; constructor).
  destruct o as [ms ops nm|ms ops nm|gb ops nm gs|v nm t|].
  - rewrite (run_gate n data l false ms ops nm h Hl) in Hrun.
    unfold bind in Hrun. pose proof (all_match_heap ms data h) as Hh.
    destruct (all_match ms data h) as [rb hb]. simpl in Hh. subst hb.
    destruct rb as [[]|e| |]; simpl in Hrun;
      try (by injection Hrun as <- <-).
    by eapply (for_each_run_frame n data IH ops).
  - rewrite (run_gate n data l true ms ops nm h Hl) in Hrun.
    unfold bind in Hrun. pose proof (all_match_heap ms data h) as Hh.
    destruct (all_match ms data h) as [rb hb]. simpl in Hh. subst hb.
    destruct rb as [[]|e| |]; simpl in Hrun;
      try (by injection Hrun as <- <-).
    by eapply (for_each_run_frame n data IH ops).
  - destruct (data !! gb) as [k|] eqn:Hk.
    2:{ rewrite (run_Grouper_no_key n data l h gb ops nm gs Hl Hk) in Hrun.
        by injection Hrun as <- <-. }
    destruct (dict_get gs k) as [c|] eqn:Hd.
    { rewrite (run_Grouper_old n data l h gb ops nm gs k c Hl Hk Hd) in Hrun.
      eapply (for_each_run_frame n data IH c); [done..|].
      intros c' Hc'. apply Hchild. simpl. apply elem_of_app. right.
      by eapply dict_get_refs. }
    destruct (deepcopy n ops h) as [r1 h1] eqn:Hcopy.
    destruct (deepcopy_spec n ops h r1 h1 Hc) as (Hfc & _ & Hok); [|done|].
    { intros y Hy. apply (Hc l _ y Hl). simpl. apply elem_of_app. by left. }
    rewrite (run_Grouper_new n data l h gb ops nm gs k r1 h1 Hl Hk Hd Hcopy)
      in Hrun by apply Hfc.
    assert (h1 !! x = h !! x) as H1.
    { symmetry. apply prefix_lookup_lt; [done|apply Hfc]. }
    destruct r1 as [c|e| |]; try (by injection Hrun as <- <-).
    destruct (Hok c eq_refl) as [_ Hcb].
    destruct (install_clone h h1 l gb ops nm gs k c Hc Hfc Hl Hcb)
      as [Hc2 Hg2].
    rewrite <- H1.
    rewrite <- (list_lookup_insert_ne h1 l x
                  (Grouper gb ops nm (gs ++ [(k, c)])) Hne).
    eapply (for_each_run_frame n data IH c); [done..| |].
    + destruct Hg2 as [Hlen _]. lia.
    + intros c' Hc' Hr.
      pose proof (grows_reach_new h _ c' x Hg2 Hr). pose proof (Hcb c' Hc').
      lia.
  - destruct (run_Summer_store n data v nm t l h r h' Hl Hrun)
      as [->|[t' ->]]; [done|].
    by apply list_lookup_insert_ne.
  - cbn [run] in Hrun. unfold bind, deref in Hrun. rewrite Hl in Hrun.
    by injection Hrun as <- <-.
Qed.

(** ** [Grouper]: one clone per key *)

Lemma dict_set_same {A} (d : list (value * A)) k a :
  dict_get d k = Some a → dict_set d k a = d.
Proof.
  induction d as [|[k' a'] d IH]; [done|]. simpl.
  destruct (py_eq k' k); [by intros [= ->]|]. intros Hd. by rewrite IH.
Qed.

(** The core of the independence of groups.  The record is dispatched in
    the store [h2] into the operators [c] of entry [i0] of the groups;
    [h2] is the store [h] before the call, or [h] with a new clone [c]
    installed; [c] is an old entry or consists of new instances. *)
Lemma dispatch_independent n data g h gb tmpl nm gs h2 gs2 i0 k0 c r h' :
  closed h → h !! g = Some (Grouper gb tmpl nm gs) →
  ¬ reach_from h tmpl g →
  (∀ i k1 c1 x, gs !! i = Some (k1, c1) → reach_from h c1 x →
     x ≠ g ∧ ¬ reach_from h tmpl x) →
  (∀ i j ki ci kj cj x, i ≠ j →
     gs !! i = Some (ki, ci) → gs !! j = Some (kj, cj) →
     reach_from h ci x → ¬ reach_from h cj x) →
  closed h2 → grows h h2 →
  (∀ x, x < List.length h → x ≠ g → h2 !! x = h !! x) →
  h2 !! g = Some (Grouper gb tmpl nm gs2) →
  gs2 !! i0 = Some (k0, c) →
  (∀ j, j ≠ i0 → gs2 !! j = gs !! j) →
  (∀ a, a ∈ c → a < List.length h → gs !! i0 = Some (k0, c)) →
  for_each (run n data) c h2 = (r, h') →
  (∀ x, reach_from h tmpl x → h' !! x = h !! x) ∧
  (∀ j kj cj x, j ≠ i0 → gs !! j = Some (kj, cj) →
     reach_from h cj x → h' !! x = h !! x) ∧
  closed h' ∧ separated h' g.
Proof.
  intros Hc Hg Hng Hct Hcc Hc2 Hg2 Hsame2 Hg2' Hi0 Hoth Hold Hrun.
  destruct (for_each_grows _ (run_grows n data) c h2 r h' Hc2 Hrun)
    as [Hc' Hg'].
  pose proof (grows_trans h h2 h' Hg2 Hg') as Hgh.
  assert (g < List.length h) as Hgl by (by eapply lookup_lt_Some).
  assert (∀ y, y ∈ tmpl → y < List.length h) as Htl.
  { intros y Hy. apply (Hc g _ y Hg). simpl. apply elem_of_app. by left. }
  assert (∀ j kj cj y, gs !! j = Some (kj, cj) → y ∈ cj →
                       y < List.length h) as Hcl.
  { intros j kj cj y Hj Hy. apply (Hc g _ y Hg). simpl.
    apply elem_of_app. right. apply list_elem_of_join. exists cj.
    split; [done|]. apply list_elem_of_fmap. exists (kj, cj).
    split; [done|]. by eapply list_elem_of_lookup_2. }
  (* an old instance below [c] was below [c] before, and [c] is old *)
  assert (∀ hx x, grows h hx → x < List.length h → reach_from hx c x →
            reach_from h c x ∧ gs !! i0 = Some (k0, c)) as Hk.
  { intros hx x Hgx Hx (a & Ha & Hr).
    destruct (grows_reach_old h hx a x Hgx Hr Hx) as [Hal Hr'].
    split; [by exists a|by eapply Hold]. }
  (* what the dispatch leaves as it was *)
  assert (∀ x, x < List.length h → x ≠ g →
            (gs !! i0 = Some (k0, c) → ¬ reach_from h c x) →
            h' !! x = h !! x) as Hframe.
  { intros x Hx Hxg Hnot. rewrite <- (Hsame2 x Hx Hxg).
    eapply (for_each_run_frame n data (run_frame n data) c); [done..| |].
    - destruct Hg2 as [Hlen _]. lia.
    - intros a Ha Hr. destruct (Hk h2 x Hg2 Hx) as [Hrc Hi]; [by exists a|].
      by apply Hnot. }
  assert (∀ x, reach_from h tmpl x → h' !! x = h !! x) as Htmpl.
  { intros x Hx. apply Hframe.
    - by eapply reach_from_lt.
    - by intros ->.
    - intros Hi Hrc. by destruct (Hct i0 k0 c x Hi Hrc). }
  assert (∀ j kj cj x, j ≠ i0 → gs !! j = Some (kj, cj) →
            reach_from h cj x → h' !! x = h !! x) as Hother.
  { intros j kj cj x Hj Hgj Hx. apply Hframe.
    - eapply reach_from_lt; [done| |done]. intros y Hy. by eapply Hcl.
    - by destruct (Hct j kj cj x Hgj Hx).
    - intros Hi Hrc. by apply (Hcc i0 j k0 c kj cj x). }
  assert (h' !! g = Some (Grouper gb tmpl nm gs2)) as Hg'g.
  { rewrite <- Hg2'.
    eapply (for_each_run_frame n data (run_frame n data) c); [done..| |].
    - destruct Hg2 as [Hlen _]. lia.
    - intros a Ha Hr. destruct (Hk h2 g Hg2 Hgl) as [Hrc Hi]; [by exists a|].
      by destruct (Hct i0 k0 c g Hi Hrc). }
  assert (∀ x, reach_from h' tmpl x ↔ reach_from h tmpl x) as Htr
    by (intros x; by apply reach_from_same).
  assert (∀ j kj cj x, j ≠ i0 → gs !! j = Some (kj, cj) →
            (reach_from h' cj x ↔ reach_from h cj x)) as Hor.
  { intros j kj cj x Hj Hgj. apply reach_from_same. intros y Hy.
    by eapply Hother. }
  split_and!; [done..|].
  exists gb, tmpl, nm, gs2. split_and!; [done|by rewrite Htr|..].
  - intros i k1 c1 x Hi Hx. rewrite Htr.
    destruct (decide (i = i0)) as [->|Hne].
    + assert (c1 = c) as -> by congruence.
      destruct (decide (x < List.length h)) as [Hlt|Hge].
      * destruct (Hk h' x Hgh Hlt Hx) as [Hrc Hi']. by eapply Hct.
      * split; [lia|]. intros Hxt.
        pose proof (reach_from_lt h tmpl x Hc Htl Hxt). lia.
    + rewrite (Hoth i Hne) in Hi. eapply Hct; [done|].
      by eapply Hor.
  - intros i j ki ci kj cj x Hij Hi Hj Hxi Hxj.
    destruct (decide (i = i0)) as [->|Hni];
      [|destruct (decide (j = i0)) as [->|Hnj]].
    + assert (ci = c) as -> by congruence.
      rewrite (Hoth j) in Hj by done.
      apply (Hor j kj cj x) in Hxj; [|done..].
      assert (x < List.length h) as Hlt.
      { eapply reach_from_lt; [done| |done]. intros y Hy. by eapply Hcl. }
      destruct (Hk h' x Hgh Hlt Hxi) as [Hrc Hi'].
      by apply (Hcc i0 j k0 c kj cj x).
    + assert (cj = c) as -> by congruence.
      rewrite (Hoth i) in Hi by done.
      apply (Hor i ki ci x) in Hxi; [|done..].
      assert (x < List.length h) as Hlt.
      { eapply reach_from_lt; [done| |done]. intros y Hy. by eapply Hcl. }
      destruct (Hk h' x Hgh Hlt Hxj) as [Hrc Hi'].
      by apply (Hcc i i0 ki ci k0 c x).
    + rewrite (Hoth i) in Hi by done. rewrite (Hoth j) in Hj by done.
      apply (Hor i ki ci x) in Hxi; [|done..].
      apply (Hor j kj cj x) in Hxj; [|done..].
      by apply (Hcc i j ki ci kj cj x).
Qed.

Lemma reach_no_refs h l x :
  (∀ o, h !! l = Some o → refs o = []) → reach h l x → x = l.
Proof.
  intros Hl Hr. destruct Hr as [|l o l' x Ho Hin _]; [done|].
  rewrite (Hl o Ho) in Hin. inversion Hin.
Qed.

(** A [Grouper] without groups that is not below its own template has
    separated groups: the invariant holds when the tree is built. *)
Lemma separated_no_groups h g gb tmpl nm :
  h !! g = Some (Grouper gb tmpl nm []) → ¬ reach_from h tmpl g →
  separated h g.
Proof.
  intros Hg Hng. exists gb, tmpl, nm, []. split_and!; [done..| |].
  - by intros i k c x Hi.
  - by intros i j ki ci kj cj x _ Hi.
Qed.

Lemma store_A15_closed : closed store_A15.
Proof.
  intros l o y Hl Hy.
  destruct l as [|[|[|l]]]; simpl in Hl; [| | |done];
    injection Hl as <-; simpl in Hy.
  - apply elem_of_cons in Hy as [->|Hy]; [simpl; lia|].
    apply elem_of_cons in Hy as [->|Hy]; [simpl; lia|]. inversion Hy.
  - inversion Hy.
  - inversion Hy.
Qed.

Lemma store_A15_separated : separated store_A15 0.
Proof.
  exists "dept", [1], "group", [(VStr "A", [2])].
  assert (∀ x, reach_from store_A15 [1] x → x = 1) as H1.
  { intros x (l & ->%list_elem_of_singleton & Hr).
    apply (reach_no_refs store_A15 1 x); [|done]. by intros o [= <-]. }
  assert (∀ x, reach_from store_A15 [2] x → x = 2) as H2.
  { intros x (l & ->%list_elem_of_singleton & Hr).
    apply (reach_no_refs store_A15 2 x); [|done]. by intros o [= <-]. }
  split_and!; [done|..].
  - intros H0%H1. lia.
  - intros i k c x Hi Hx. destruct i as [|i]; [|done].
    injection Hi as <- <-. apply H2 in Hx as ->.
    split; [lia|]. intros Hx%H1. lia.
  - intros i j ki ci kj cj x Hij Hi Hj.
    destruct i as [|i]; [|done]. destruct j as [|j]; [done|done].
Qed.

Lemma store_template_5_closed : closed store_template_5.
Proof.
  intros l o y Hl Hy.
  destruct l as [|[|l]]; simpl in Hl; [| |done];
    injection Hl as <-; simpl in Hy.
  - apply elem_of_cons in Hy as [->|Hy]; [simpl; lia|]. inversion Hy.
  - inversion Hy.
Qed.

Lemma store_template_5_separated : separated store_template_5 0.
Proof.
  apply (separated_no_groups store_template_5 0 "dept" [1] "group");
    [done|].
  intros (l & ->%list_elem_of_singleton & Hr).
  apply (reach_no_refs store_template_5 1 0) in Hr; [done|].
  by intros o [= <-].
Qed.

(** C1 as the code has it: [deepcopy] copies the template children as
    they are, not as they were constructed.  In a closed store with
    separated groups whose template [Summer] holds 5, the clone made for
    the first record of "B" starts at 5 and ends at 12, not at 7.  And
    with one [Summer] added both as a root and as the child of the
    [Grouper], the records of "A" with 10 and 5 leave the group "A" at
    25, not at 15. *)
Lemma Grouper_clone_copies_template_total :
  closed store_template_5 ∧ separated store_template_5 0 ∧
  deepcopy 2 [1] store_template_5
  = (Ok [2], [Grouper "dept" [1] "group" [];
              Summer "amt" "total" 5; Summer "amt" "total" 5]) ∧
  run 3 rec_B7 0 store_template_5
  = (Ok tt, [Grouper "dept" [1] "group" [(VStr "B", [2])];
             Summer "amt" "total" 5; Summer "amt" "total" 12]) ∧
  (s <- new_Summer "total" "amt" ;;
   g <- new_Grouper "group" "dept" ;;
   add_operator g s >>
   Processor_start 3 {| data_iterator := [rec_A10; rec_A5];
                        proc_operators := [s; g] |}) []
  = (Ok tt, [Summer "amt" "total" 15;
             Grouper "dept" [0] "group" [(VStr "A", [2])];
             Summer "amt" "total" 25]).
Proof.
  split_and!; [apply store_template_5_closed
              |apply store_template_5_separated|reflexivity..].
Qed.

(** C1, amended. Let [g] be a [Grouper] in a closed store whose groups
    are separated, and let the record have the key [k].  Then [run] hands
    the record to the operators [c] of the group of [k], in order, and to
    nothing else, [c] being [groups[k]] from then on.  If [k] has a group
    already, [c] is that group and the store is untouched before the
    dispatch.  If the record is the first of its key, [c] is a deep clone
    of the template children as they are at that moment, made by
    [deepcopy]: instances that are all new, with the attributes of the
    template instances, so that the clone of a [Summer] child starts at
    the total the template child holds; the clone is in the initial
    state when the template is.  Whatever the dispatch does and however
    it ends, the instances below the template children and below the
    group of any other key are as they were, and the groups stay
    separated. *)
Theorem Grouper_run_clones n data g h gb tmpl nm gs k :
  closed h → separated h g →
  h !! g = Some (Grouper gb tmpl nm gs) →
  data !! gb = Some k →
  List.length h ≤ n →
  ∃ c h1,
    run (S n) data g h = for_each (run n data) c h1 ∧
    h1 !! g = Some (Grouper gb tmpl nm (dict_set gs k c)) ∧
    dict_get (dict_set gs k c) k = Some c ∧
    match dict_get gs k with
    | Some c0 => c = c0 ∧ h1 = h
    | None =>
        ∃ h0, deepcopy n tmpl h = (Ok c, h0) ∧
              h1 = <[g := Grouper gb tmpl nm (gs ++ [(k, c)])]> h0 ∧
              deep_clone h tmpl h0 c ∧
              (∀ x, reach_from h1 c x → List.length h ≤ x) ∧
              (∀ i s v nmS t, tmpl !! i = Some s →
                 h !! s = Some (Summer v nmS t) →
                 ∃ s', c !! i = Some s' ∧
                       h1 !! s' = Some (Summer v nmS t)) ∧
              ((∀ x o, reach_from h tmpl x → h !! x = Some o → initial o) →
               ∀ x o, reach_from h1 c x → h1 !! x = Some o → initial o)
    end ∧
    ∀ r h', for_each (run n data) c h1 = (r, h') →
      (∀ x, reach_from h tmpl x → h' !! x = h !! x) ∧
      (∀ j kj cj x, gs !! j = Some (kj, cj) → py_eq kj k = false →
         reach_from h cj x → h' !! x = h !! x) ∧
      closed h' ∧ separated h' g.
Proof.
  intros Hc (gb' & tmpl' & nm' & gs' & Hg' & Hng & Hct & Hcc) Hg Hk Hn.
  rewrite Hg in Hg'. injection Hg' as <- <- <- <-.
  destruct (dict_get gs k) as [c0|] eqn:Hd.
  - destruct (dict_get_lookup gs k c0 Hd) as (i0 & k0 & Hi0 & Hk0).
    exists c0, h. rewrite (dict_set_same gs k c0 Hd).
    split_and!; [by eapply run_Grouper_old|done..|].
    intros r h' Hrun.
    destruct (dispatch_independent n data g h gb tmpl nm gs h gs i0 k0 c0
                r h') as (Ht & Ho & Hc' & Hs'); try done.
    { apply grows_refl. }
    split_and!; [done| |done..].
    intros j kj cj x Hj Hkj. apply (Ho j kj cj x); [|done].
    intros ->. congruence.
  - destruct (deepcopy n tmpl h) as [r1 h0] eqn:Hcopy.
    destruct (deepcopy_spec n tmpl h r1 h0 Hc) as (Hfc & Hterm & Hok);
      [|done|].
    { intros y Hy. apply (Hc g _ y Hg). simpl. apply elem_of_app. by left. }
    destruct (Hterm Hn) as [c ->].
    destruct (Hok c eq_refl) as [Hclone Hcb].
    set (h1 := <[g := Grouper gb tmpl nm (gs ++ [(k, c)])]> h0).
    destruct (install_clone h h0 g gb tmpl nm gs k c Hc Hfc Hg Hcb)
      as [Hc1 Hg1]. fold h1 in Hc1, Hg1.
    assert (g < List.length h) as Hgl by (by eapply lookup_lt_Some).
    assert (List.length h ≤ List.length h0) as Hlen
      by apply prefix_length, Hfc.
    assert (h1 !! g = Some (Grouper gb tmpl nm (gs ++ [(k, c)]))) as Hg1'.
    { unfold h1. apply list_lookup_insert_eq. lia. }
    assert (∀ x, reach_from h1 c x → List.length h ≤ x) as Hfresh.
    { intros x (a & Ha & Hr). apply (grows_reach_new h h1 a x Hg1 Hr).
      apply (Hcb a Ha). }
    exists c, h1. rewrite (dict_set_new gs k c Hd).
    split_and!; [|done|by apply dict_get_new| |].
    + rewrite (run_Grouper_new n data g h gb tmpl nm gs k (Ok c) h0);
        [done..|apply Hfc].
    + exists h0. split_and!; [done..| |].
      { intros i s v nmS t Hi Hs.
        destruct Hclone as (m & _ & Hcm & Hcl).
        destruct (Hcl s) as (s' & o & Hm & Hs' & Ho & Ho').
        { exists s. split; [by eapply list_elem_of_lookup_2|constructor]. }
        exists s'. split.
        - rewrite Hcm, list_lookup_fmap, Hi. simpl.
          by rewrite (ren_lookup m s s' Hm).
        - unfold h1. rewrite list_lookup_insert_ne by lia.
          rewrite Ho'. by replace o with (Summer v nmS t) by congruence. }
      intros Hinit x o Hx Ho.
      assert (∀ y, reach_from h0 c y → h1 !! y = h0 !! y) as Hsame.
      { intros y (a & Ha & Hr). unfold h1. apply list_lookup_insert_ne.
        pose proof (grows_reach_new h h0 a y (fresh_cells_grows _ _ Hfc) Hr).
        pose proof (Hcb a Ha). lia. }
      apply (reach_from_same h0 h1 c x Hsame) in Hx as Hx0.
      rewrite (Hsame x Hx0) in Ho.
      by eapply (deep_clone_initial h tmpl h0 c).
    + intros r h' Hrun.
      destruct (dispatch_independent n data g h gb tmpl nm gs h1
                  (gs ++ [(k, c)]) (List.length gs) k c r h')
        as (Ht & Ho & Hc' & Hs'); try done.
      * intros x Hx Hxg. unfold h1.
        rewrite list_lookup_insert_ne by done.
        symmetry. apply prefix_lookup_lt; [done|apply Hfc].
      * by rewrite lookup_app_r, Nat.sub_diag by lia.
      * intros j Hj. destruct (decide (j < List.length gs)) as [Hlt|Hge].
        -- by rewrite lookup_app_l.
        -- rewrite lookup_app_r by lia.
           rewrite (lookup_ge_None_2 gs j) by lia.
           destruct (j - List.length gs) as [|d] eqn:Hjd; [lia|done].
      * intros a Ha Hal. pose proof (Hcb a Ha). lia.
      * split_and!; [done| |done..].
        intros j kj cj x Hj Hkj. apply (Ho j kj cj x); [|done].
        intros ->. apply lookup_lt_Some in Hj. lia.
Qed.

Lemma Grouper_run_clones_witness :
  ∃ c h1,
    run 4 rec_B7 0 store_A15 = for_each (run 3 rec_B7) c h1 ∧
    h1 !! 0
    = Some (Grouper "dept" [1] "group"
              (dict_set [(VStr "A", [2])] (VStr "B") c)) ∧
    dict_get (dict_set [(VStr "A", [2])] (VStr "B") c) (VStr "B") = Some c ∧
    (∃ h0, deepcopy 3 [1] store_A15 = (Ok c, h0) ∧
           h1 = <[0 := Grouper "dept" [1] "group"
                          ([(VStr "A", [2])] ++ [(VStr "B", c)])]> h0 ∧
           deep_clone store_A15 [1] h0 c ∧
           (∀ x, reach_from h1 c x → 3 ≤ x) ∧
           (∀ i s v nmS t, [1] !! i = Some s →
              store_A15 !! s = Some (Summer v nmS t) →
              ∃ s', c !! i = Some s' ∧
                    h1 !! s' = Some (Summer v nmS t)) ∧
           ((∀ x o, reach_from store_A15 [1] x → store_A15 !! x = Some o →
                    initial o) →
            ∀ x o, reach_from h1 c x → h1 !! x = Some o → initial o)) ∧
    ∀ r h', for_each (run 3 rec_B7) c h1 = (r, h') →
      (∀ x, reach_from store_A15 [1] x → h' !! x = store_A15 !! x) ∧
      (∀ j kj cj x, [(VStr "A", [2])] !! j = Some (kj, cj) →
         py_eq kj (VStr "B") = false →
         reach_from store_A15 cj x → h' !! x = store_A15 !! x) ∧
      closed h' ∧ separated h' 0.
Proof.
  apply (Grouper_run_clones 3 rec_B7 0 store_A15 "dept" [1] "group"
           [(VStr "A", [2])] (VStr "B")).
  - apply store_A15_closed.
  - apply store_A15_separated.
  - reflexivity.
  - reflexivity.
  - simpl. lia.
Defined.


(** * Further properties of the code *)

(** ** Python's [==] and dictionaries *)

Lemma py_eq_sym a b : py_eq a b = py_eq b a.
Proof.
  destruct a as [x|c|s|], b as [y|d|t|]; simpl; try done.
  - apply Z.eqb_sym.
  - apply Z.eqb_sym.
  - apply Z.eqb_sym.
  - by destruct c, d.
  - apply String.eqb_sym.
Qed.

Lemma py_eq_trans a b c :
  py_eq a b = true → py_eq b c = true → py_eq a c = true.
Proof.
  destruct a as [x|x|x|], b as [y|y|y|], c as [z|z|z|]; simpl; try done;
    rewrite ?Z.eqb_eq, ?String.eqb_eq;
    try (intros -> ->; done); try (intros <- <-; done);
    try (intros -> <-; done); try (intros <- ->; done);
    destruct x, y; simpl; try done; try lia;
    try (destruct z; simpl; done || lia).
Qed.

(** Keys that are equal find the same entry. *)
Lemma dict_get_py_eq {A} (d : list (value * A)) k k' :
  py_eq k k' = true → dict_get d k = dict_get d k'.
Proof.
  intros Hk. induction d as [|[k1 a1] d IH]; [done|]. simpl.
  destruct (py_eq k1 k) eqn:H1, (py_eq k1 k') eqn:H2; try done.
  - by rewrite (py_eq_trans k1 k k') in H2.
  - rewrite py_eq_sym in Hk. by rewrite (py_eq_trans k1 k' k) in H1.
Qed.

Lemma dict_get_set_eq {A} (d : list (value * A)) k a :
  dict_get (dict_set d k a) k = Some a.
Proof.
  induction d as [|[k1 a1] d IH]; simpl.
  - by rewrite py_eq_refl.
  - destruct (py_eq k1 k) eqn:H1; simpl; by rewrite H1.
Qed.

Lemma dict_get_set_ne {A} (d : list (value * A)) k a k' :
  py_eq k k' = false → dict_get (dict_set d k a) k' = dict_get d k'.
Proof.
  intros Hk. induction d as [|[k1 a1] d IH]; simpl.
  - by rewrite Hk.
  - destruct (py_eq k1 k) eqn:H1; simpl.
    + destruct (py_eq k1 k') eqn:H2; [|done].
      rewrite py_eq_sym in H1. by rewrite (py_eq_trans k k1 k') in Hk.
    + by destruct (py_eq k1 k').
Qed.

Lemma dict_contains_set {A} (d : list (value * A)) k a k' :
  dict_contains (dict_set d k a) k' = dict_contains d k' || py_eq k k'.
Proof.
  unfold dict_contains. destruct (py_eq k k') eqn:Hk.
  - rewrite <- (dict_get_py_eq _ k k' Hk), dict_get_set_eq.
    by rewrite orb_true_r.
  - rewrite (dict_get_set_ne d k a k' Hk). by rewrite orb_false_r.
Qed.

Lemma for_each_app {A} (body : A → M unit) xs ys h :
  for_each body (xs ++ ys) h
  = (for_each body xs >> for_each body ys) h.
Proof.
  revert h. induction xs as [|x xs IH]; intros h; [done|].
  cbn [app for_each]. unfold bind.
  destruct (body x h) as [[[]|e| |] h1]; try done.
Qed.

(** ** What [run] changes *)

Lemma closedb_closed h : closedb h = true → closed h.
Proof.
  unfold closedb. intros Hb l o y Hl Hy.
  rewrite forallb_forall in Hb.
  assert (In o h) as Hin.
  { apply list_elem_of_In. by eapply list_elem_of_lookup_2. }
  specialize (Hb o Hin). rewrite forallb_forall in Hb.
  apply list_elem_of_In in Hy. specialize (Hb y Hy).
  by apply Nat.ltb_lt in Hb.
Qed.

(** X1. [run] leaves every instance that is not below the operator it is
    called on exactly as it was, whatever the outcome of the call. *)
Theorem run_changes_only_below n data l h r h' x o :
  closed h → run n data l h = (r, h') →
  h !! x = Some o → ¬ reach h l x → h' !! x = Some o.
Proof.
  intros Hc Hrun Hx Hnr. rewrite <- Hx.
  eapply run_frame; [done..| |done]. by eapply lookup_lt_Some.
Qed.

Lemma store_gate_not_below : ¬ reach store_gate 0 2.
Proof.
  intros Hr. inversion Hr as [|l o l' x Ho Hin Hr']; subst.
  injection Ho as <-. simpl in Hin.
  apply list_elem_of_singleton in Hin as ->.
  apply (reach_no_refs store_gate 1 2) in Hr'; [done|].
  by intros o [= <-].
Qed.

Lemma run_changes_only_below_witness :
  (run 2 rec_A10 0 store_gate).2 !! 2 = Some (Summer "amt" "other" 7).
Proof.
  apply (run_changes_only_below 2 rec_A10 0 store_gate
           (run 2 rec_A10 0 store_gate).1 (run 2 rec_A10 0 store_gate).2
           2 (Summer "amt" "other" 7)).
  - apply closedb_closed. reflexivity.
  - by destruct (run 2 rec_A10 0 store_gate).
  - reflexivity.
  - apply store_gate_not_below.
Defined.

Lemma evolves_refl o : evolves o o.
Proof. by destruct o. Qed.

Lemma evolves_trans o1 o2 o3 : evolves o1 o2 → evolves o2 o3 → evolves o1 o3.
Proof.
  destruct o1, o2, o3; simpl; try done.
  - intros (-> & -> & ->) (-> & -> & ->). done.
  - intros (-> & -> & ->) (-> & -> & ->). done.
  - intros (-> & -> & -> & Hp1) (-> & -> & -> & Hp2).
    split_and!; [done..|]. by etrans.
  - intros (-> & ->) (-> & ->). done.
Qed.

Lemma keeps_refl h : keeps h h.
Proof. intros x o Hx. exists o. split; [done|apply evolves_refl]. Qed.

Lemma keeps_trans h1 h2 h3 : keeps h1 h2 → keeps h2 h3 → keeps h1 h3.
Proof.
  intros H12 H23 x o1 H1. destruct (H12 x o1 H1) as (o2 & H2 & He12).
  destruct (H23 x o2 H2) as (o3 & H3 & He23). exists o3.
  split; [done|]. by eapply evolves_trans.
Qed.

Lemma keeps_prefix (h h' : heap) : h `prefix_of` h' → keeps h h'.
Proof.
  intros Hp x o Hx. exists o. split; [|apply evolves_refl].
  by eapply prefix_lookup_Some.
Qed.

Lemma keeps_insert (h : heap) l o o' :
  h !! l = Some o → evolves o o' → keeps h (<[l := o']> h).
Proof.
  intros Hl He x ox Hx. destruct (decide (l = x)) as [->|Hne].
  - exists o'. rewrite list_lookup_insert_eq by (by eapply lookup_lt_Some).
    split; [done|]. congruence.
  - exists ox. rewrite list_lookup_insert_ne by done.
    split; [done|apply evolves_refl].
Qed.

Lemma for_each_run_keeps n data :
  (∀ l h r h', closed h → run n data l h = (r, h') → keeps h h') →
  ∀ xs h r h', closed h → for_each (run n data) xs h = (r, h') →
    keeps h h'.
Proof.
  intros IH. induction xs as [|c xs IHxs]; intros h r h' Hc Hrun.
  - injection Hrun as <- <-. apply keeps_refl.
  - cbn [for_each] in Hrun. unfold bind at 1 in Hrun.
    destruct (run n data c h) as [r1 h1] eqn:Hb.
    pose proof (IH c h r1 h1 Hc Hb) as Hk1.
    destruct (run_grows n data c h r1 h1 Hc Hb) as [Hc1 _].
    destruct r1 as [[]|e| |]; [|by injection Hrun as <- <-..].
    eapply keeps_trans; [done|]. by eapply IHxs.
Qed.

Lemma run_keeps n data :
  ∀ l h r h', closed h → run n data l h = (r, h') → keeps h h'.
Proof.
  induction n as [|n IH]; intros l h r h' Hc Hrun.
  { injection Hrun as <- <-. apply keeps_refl. }
  destruct (h !! l) as [o|] eqn:Hl.
  2:{ cbn [run] in Hrun. unfold bind, deref in Hrun. rewrite Hl in Hrun.
      injection Hrun as <- <-. apply keeps_refl. }
  destruct o as [ms ops nm|ms ops nm|gb ops nm gs|v nm t|].
  - rewrite (run_gate n data l false ms ops nm h Hl) in Hrun.
    unfold bind in Hrun. pose proof (all_match_heap ms data h) as Hh.
    destruct (all_match ms data h) as [rb hb]. simpl in Hh. subst hb.
    destruct rb as [[]|e| |]; simpl in Hrun;
      try (injection Hrun as <- <-; apply keeps_refl).
    by eapply (for_each_run_keeps n data IH).
  - rewrite (run_gate n data l true ms ops nm h Hl) in Hrun.
    unfold bind in Hrun. pose proof (all_match_heap ms data h) as Hh.
    destruct (all_match ms data h) as [rb hb]. simpl in Hh. subst hb.
    destruct rb as [[]|e| |]; simpl in Hrun;
      try (injection Hrun as <- <-; apply keeps_refl).
    by eapply (for_each_run_keeps n data IH).
  - destruct (data !! gb) as [k|] eqn:Hk.
    2:{ rewrite (run_Grouper_no_key n data l h gb ops nm gs Hl Hk) in Hrun.
        injection Hrun as <- <-. apply keeps_refl. }
    destruct (dict_get gs k) as [c|] eqn:Hd.
    { rewrite (run_Grouper_old n data l h gb ops nm gs k c Hl Hk Hd) in Hrun.
      by eapply (for_each_run_keeps n data IH). }
    destruct (deepcopy n ops h) as [r1 h1] eqn:Hcopy.
    destruct (deepcopy_spec n ops h r1 h1 Hc) as (Hfc & _ & Hok); [|done|].
    { intros y Hy. apply (Hc l _ y Hl). simpl. apply elem_of_app. by left. }
    rewrite (run_Grouper_new n data l h gb ops nm gs k r1 h1 Hl Hk Hd Hcopy)
      in Hrun by apply Hfc.
    pose proof (keeps_prefix h h1 (proj1 Hfc)) as Hk1.
    destruct r1 as [c|e| |]; try (by injection Hrun as <- <-).
    destruct (Hok c eq_refl) as [_ Hcb].
    destruct (install_clone h h1 l gb ops nm gs k c Hc Hfc Hl Hcb)
      as [Hc2 _].
    eapply keeps_trans; [done|]. eapply keeps_trans.
    + apply (keeps_insert h1 l (Grouper gb ops nm gs)
               (Grouper gb ops nm (gs ++ [(k, c)]))).
      * eapply prefix_lookup_Some; [done|apply Hfc].
      * simpl. split_and!; [done..|]. by apply prefix_app_r.
    + by eapply (for_each_run_keeps n data IH).
  - destruct (run_Summer_store n data v nm t l h r h' Hl Hrun)
      as [->|[t' ->]]; [apply keeps_refl|].
    by eapply keeps_insert.
  - cbn [run] in Hrun. unfold bind, deref in Hrun. rewrite Hl in Hrun.
    injection Hrun as <- <-. apply keeps_refl.
Qed.

(** X2. [run] never changes the configuration of the tree: after the
    call every instance is still there with its class, its name, its
    conditions, its field and its children; only the total of a [Summer]
    may differ and the groups of a [Grouper] may have gained entries at
    the end. *)
Theorem run_keeps_configuration n data l h r h' x o :
  closed h → run n data l h = (r, h') → h !! x = Some o →
  ∃ o', h' !! x = Some o' ∧ evolves o o'.
Proof. intros Hc Hrun Hx. by eapply run_keeps. Qed.

Lemma run_keeps_configuration_witness :
  ∃ o', (run 3 rec_B7 0 store_A15).2 !! 0 = Some o' ∧
        evolves (Grouper "dept" [1] "group" [(VStr "A", [2])]) o'.
Proof.
  apply (run_keeps_configuration 3 rec_B7 0 store_A15
           (run 3 rec_B7 0 store_A15).1 (run 3 rec_B7 0 store_A15).2 0).
  - apply closedb_closed. reflexivity.
  - by destruct (run 3 rec_B7 0 store_A15).
  - reflexivity.
Defined.

(** ** Building the tree *)

Lemma closed_alloc (h : heap) o :
  closed h → refs o = [] → closed (h ++ [o]).
Proof.
  intros Hc Ho l ol y Hl Hy. rewrite length_app. simpl.
  destruct (decide (l < List.length h)) as [Hlt|Hge].
  - rewrite lookup_app_l in Hl by done. pose proof (Hc l ol y Hl Hy). lia.
  - rewrite lookup_app_r in Hl by lia.
    destruct (l - List.length h) as [|i]; [|done].
    injection Hl as <-. rewrite Ho in Hy. inversion Hy.
Qed.

(** The constructors and [add_operator] keep the store closed: a
    tree built with them has no reference to an instance that does not
    exist, provided the child handed to [add_operator] exists. *)
Theorem construction_keeps_closed h :
  closed h →
  (∀ nm ms, closed (new_Matcher nm ms h).2) ∧
  (∀ nm ms, closed (new_Filter nm ms h).2) ∧
  (∀ nm gb, closed (new_Grouper nm gb h).2) ∧
  (∀ nm v, closed (new_Summer nm v h).2) ∧
  (∀ l c, c < List.length h → closed (add_operator l c h).2).
Proof.
  intros Hc. split_and!; try (intros; by apply closed_alloc).
  intros l c Hlt. unfold add_operator, bind, deref.
  destruct (h !! l) as [o|] eqn:Hl; [|done].
  assert (∀ ops y, (∀ z, z ∈ ops → z < List.length h) →
                   y ∈ ops ++ [c] → y < List.length h) as Happ.
  { intros ops y Hops [Hy| ->%list_elem_of_singleton]%elem_of_app;
      [by apply Hops|done]. }
  destruct o as [ms ops nm|ms ops nm|gb ops nm gs|v nm t|]; simpl; try done.
  - intros x ox y Hx Hy. rewrite length_insert.
    destruct (decide (l = x)) as [->|Hne].
    + rewrite list_lookup_insert_eq in Hx by (by eapply lookup_lt_Some).
      injection Hx as <-. apply (Happ ops); [|done].
      intros z Hz. by apply (Hc x _ z Hl).
    + rewrite list_lookup_insert_ne in Hx by done. by eapply Hc.
  - intros x ox y Hx Hy. rewrite length_insert.
    destruct (decide (l = x)) as [->|Hne].
    + rewrite list_lookup_insert_eq in Hx by (by eapply lookup_lt_Some).
      injection Hx as <-. apply (Happ ops); [|done].
      intros z Hz. by apply (Hc x _ z Hl).
    + rewrite list_lookup_insert_ne in Hx by done. by eapply Hc.
  - intros x ox y Hx Hy. rewrite length_insert.
    destruct (decide (l = x)) as [->|Hne].
    + rewrite list_lookup_insert_eq in Hx by (by eapply lookup_lt_Some).
      injection Hx as <-. simpl in Hy.
      apply elem_of_app in Hy as [Hy|Hy].
      * apply (Happ ops); [|done]. intros z Hz. apply (Hc x _ z Hl).
        simpl. apply elem_of_app. by left.
      * apply (Hc x _ y Hl). simpl. apply elem_of_app. by right.
    + rewrite list_lookup_insert_ne in Hx by done. by eapply Hc.
Qed.

Lemma construction_keeps_closed_witness :
  (∀ nm ms, closed (new_Matcher nm ms store_gate).2) ∧
  (∀ nm ms, closed (new_Filter nm ms store_gate).2) ∧
  (∀ nm gb, closed (new_Grouper nm gb store_gate).2) ∧
  (∀ nm v, closed (new_Summer nm v store_gate).2) ∧
  (∀ l c, c < 3 → closed (add_operator l c store_gate).2).
Proof.
  apply (construction_keeps_closed store_gate).
  apply closedb_closed. reflexivity.
Defined.

(** ** Totals *)

Lemma run_Summer_present n data v nm t l h :
  h !! l = Some (Summer v nm t) → is_Some (data !! v) →
  run (S n) data l h
  = (Ok tt, <[l := Summer v nm (t + field_value v data)%Z]> h).
Proof.
  intros Hl [x Hx]. cbn [run]. unfold bind at 1, deref. rewrite Hl.
  unfold try_except, bind, getitem, field_value. rewrite Hx.
  destruct x as [z|b|s|]; simpl; try done;
    by rewrite Z.add_0_r, list_insert_id.
Qed.

Lemma insert_Summer_twice (h : heap) l o o' :
  <[l := o']> (<[l := o]> h) = <[l := o']> h.
Proof. apply list_insert_insert_eq. Qed.

(** X3. A [Summer] run over records that all have its field ends with
    its total raised by the sum of the numbers in that field; values that
    are no numbers count for nothing and stop nothing, and [output] then
    returns the name with that total. *)
Theorem Summer_accumulates n datas v nm t l h :
  h !! l = Some (Summer v nm t) →
  (∀ d, d ∈ datas → is_Some (d !! v)) →
  for_each (λ d, run (S n) d l) datas h
  = (Ok tt, <[l := Summer v nm (t + field_sum v datas)%Z]> h) ∧
  output (S n) l (<[l := Summer v nm (t + field_sum v datas)%Z]> h)
  = (Ok (nm, PVal (VInt (t + field_sum v datas)%Z)),
     <[l := Summer v nm (t + field_sum v datas)%Z]> h).
Proof.
  intros Hl Hall. split.
  - revert t h Hl. induction datas as [|d datas IH]; intros t h Hl.
    + simpl. by rewrite Z.add_0_r, list_insert_id.
    + cbn [for_each field_sum]. unfold bind.
      rewrite (run_Summer_present n d v nm t l h Hl) by (apply Hall; by left).
      rewrite (IH (λ d' Hd', Hall d' (list_elem_of_further _ _ _ Hd'))
                 (t + field_value v d)%Z).
      * by rewrite insert_Summer_twice, Z.add_assoc.
      * apply list_lookup_insert_eq. by eapply lookup_lt_Some.
  - cbn [output]. unfold bind, deref.
    by rewrite list_lookup_insert_eq by (by eapply lookup_lt_Some).
Qed.

Lemma Summer_accumulates_witness :
  for_each (λ d, run 1 d 1) [rec_A10; rec_A5; rec_B7] store_gate
  = (Ok tt, <[1 := Summer "amt" "total"
                     (0 + field_sum "amt" [rec_A10; rec_A5; rec_B7])%Z]>
              store_gate) ∧
  output 1 1 (<[1 := Summer "amt" "total"
                      (0 + field_sum "amt" [rec_A10; rec_A5; rec_B7])%Z]>
                store_gate)
  = (Ok ("total",
         PVal (VInt (0 + field_sum "amt" [rec_A10; rec_A5; rec_B7])%Z)),
     <[1 := Summer "amt" "total"
              (0 + field_sum "amt" [rec_A10; rec_A5; rec_B7])%Z]>
       store_gate).
Proof.
  apply (Summer_accumulates 0 [rec_A10; rec_A5; rec_B7] "amt" "total" 0 1
           store_gate).
  - reflexivity.
  - intros d Hd. repeat (apply elem_of_cons in Hd as [->|Hd]; [by eexists|]).
    inversion Hd.
Defined.

Lemma run_gate_Summer n data l k ms s nm v nmS t h :
  h !! l = Some (gate k ms [s] nm) → h !! s = Some (Summer v nmS t) →
  (∀ c, c ∈ ms → is_Some (data !! c.1)) → is_Some (data !! v) →
  run (S (S n)) data l h
  = (Ok tt,
     <[s := Summer v nmS
              (t + if passes k ms data then field_value v data else 0)%Z]> h).
Proof.
  intros Hl Hs Hms Hv. rewrite (run_gate (S n) data l k ms [s] nm h Hl).
  unfold bind at 1. rewrite (all_match_present ms data h Hms).
  unfold passes. destruct (xorb k (forallb (cond_holds data) ms)).
  - cbn [for_each]. unfold bind.
    by rewrite (run_Summer_present n data v nmS t s h Hs Hv).
  - by rewrite Z.add_0_r, list_insert_id.
Qed.

(** X4. A gate over one [Summer], run over records that have the fields
    of the conditions and of the sum: the total is raised by the sum over
    the records that pass the gate, those on which all conditions hold
    for a [Matcher], the others for a [Filter]. *)
Theorem gate_sums_passing_records n datas l k ms s nm v nmS t h :
  h !! l = Some (gate k ms [s] nm) → h !! s = Some (Summer v nmS t) →
  (∀ d, d ∈ datas →
     (∀ c, c ∈ ms → is_Some (d !! c.1)) ∧ is_Some (d !! v)) →
  for_each (λ d, run (S (S n)) d l) datas h
  = (Ok tt,
     <[s := Summer v nmS
              (t + field_sum v (List.filter (passes k ms) datas))%Z]> h).
Proof.
  intros Hl Hs Hall.
  assert (l ≠ s) as Hne.
  { intros ->. rewrite Hl in Hs. by destruct k. }
  revert t h Hl Hs. induction datas as [|d datas IH]; intros t h Hl Hs.
  - simpl. by rewrite Z.add_0_r, list_insert_id.
  - destruct (Hall d) as [Hms Hv]; [by left|].
    cbn [for_each List.filter]. unfold bind.
    rewrite (run_gate_Summer n d l k ms s nm v nmS t h Hl Hs Hms Hv).
    rewrite (IH (λ d' Hd', Hall d' (list_elem_of_further _ _ _ Hd'))
               (t + (if passes k ms d then field_value v d else 0))%Z).
    + rewrite insert_Summer_twice. do 3 f_equal.
      destruct (passes k ms d); cbn [field_sum]; lia.
    + by rewrite list_lookup_insert_ne.
    + apply list_lookup_insert_eq. by eapply lookup_lt_Some.
Qed.

Lemma gate_sums_passing_records_witness :
  for_each (λ d, run 2 d 0) [rec_A10; rec_A5; rec_B7]
    [Filter [("dept", VStr "A")] [1] "gate"; Summer "amt" "total" 0]
  = (Ok tt,
     <[1 := Summer "amt" "total"
              (0 + field_sum "amt"
                     (List.filter (passes true [("dept", VStr "A")])
                        [rec_A10; rec_A5; rec_B7]))%Z]>
       [Filter [("dept", VStr "A")] [1] "gate"; Summer "amt" "total" 0]).
Proof.
  apply (gate_sums_passing_records 0 [rec_A10; rec_A5; rec_B7] 0 true
           [("dept", VStr "A")] 1 "gate" "amt" "total" 0).
  - reflexivity.
  - reflexivity.
  - intros d Hd.
    assert (is_Some (d !! "dept") ∧ is_Some (d !! "amt")) as [H1 H2].
    { repeat (apply elem_of_cons in Hd as [->|Hd];
              [split; by eexists|]).
      inversion Hd. }
    split; [|done]. by intros c ->%list_elem_of_singleton.
Defined.

(** ** The engine *)

(** X5. A pass over the records [d1 ++ d2] is the pass over [d1]
    followed, if that ends without an exception, by the pass over [d2];
    if an operator raises on a record of [d1] the pass ends there with
    the store as it is and no record of [d2] is processed. *)
Theorem Processor_start_app n ops d1 d2 h :
  Processor_start n {| data_iterator := d1 ++ d2; proc_operators := ops |} h
  = match Processor_start n
            {| data_iterator := d1; proc_operators := ops |} h with
    | (Ok _, h1) =>
        Processor_start n
          {| data_iterator := d2; proc_operators := ops |} h1
    | other => other
    end.
Proof.
  unfold Processor_start. simpl. rewrite for_each_app. unfold bind.
  by destruct (for_each _ d1 h) as [[[]|e| |] h1].
Qed.



Lemma output_Summer n l v nm t h :
  h !! l = Some (Summer v nm t) →
  output (S n) l h = (Ok (nm, PVal (VInt t)), h).
Proof. intros Hl. cbn [output]. unfold bind, deref. by rewrite Hl. Qed.

Lemma str_key_ne a b : a ≠ b → py_eq (VStr a) (VStr b) = false.
Proof. intros Hne. simpl. by apply String.eqb_neq. Qed.

Lemma collect_loop_Summers n ops : ∀ d0 h,
  (∀ l, l ∈ ops → ∃ v nm t, h !! l = Some (Summer v nm t)) →
  ∃ d, collect_loop (S n) d0 ops h = (Ok d, h) ∧
    (∀ nm, (∀ l v nm' t, l ∈ ops → h !! l = Some (Summer v nm' t) →
              nm' ≠ nm) →
           dict_get d (VStr nm) = dict_get d0 (VStr nm)) ∧
    (∀ i l v nm t, ops !! i = Some l → h !! l = Some (Summer v nm t) →
       (∀ j l' v' nm' t', i < j → ops !! j = Some l' →
          h !! l' = Some (Summer v' nm' t') → nm' ≠ nm) →
       dict_get d (VStr nm) = Some (PVal (VInt t))).
Proof.
  induction ops as [|l ops IH]; intros d0 h Hall.
  - exists d0. split_and!; [done..|]. by intros i l v nm t Hi.
  - destruct (Hall l) as (v & nm & t & Hl); [by left|].
    cbn [collect_loop]. unfold bind at 1.
    rewrite (output_Summer n l v nm t h Hl).
    destruct (IH (dict_set d0 (VStr nm) (PVal (VInt t))) h)
      as (d & Hrun & Hout & Hin).
    { intros l' Hl'. apply Hall. by right. }
    exists d. split_and!; [done|..].
    + intros nm0 Hnot. rewrite Hout.
      * apply dict_get_set_ne, str_key_ne. eapply (Hnot l); [by left|done].
      * intros l' v' nm' t' Hl' Hl'2. eapply Hnot; [by right|done].
    + intros i l1 v1 nm1 t1 Hi Hl1 Hlast. destruct i as [|i].
      * injection Hi as <-. rewrite Hl in Hl1. injection Hl1 as <- <- <-.
        rewrite Hout; [apply dict_get_set_eq|].
        intros l' v' nm' t' Hl' Hl'2.
        apply list_elem_of_lookup_1 in Hl' as [j Hj].
        eapply (Hlast (S j)); [lia|done..].
      * apply (Hin i l1 v1 nm1 t1 Hi Hl1).
        intros j l' v' nm' t' Hij Hj. apply (Hlast (S j)); [lia|done].
Qed.

(** X7. For a [Processor] whose roots are all [Summer]s, [output] returns
    a mapping in which every name holds the total of the last root of
    that name: roots with a name of their own are all there, and of roots
    that share a name only the last one is. *)
Theorem Processor_output_Summers n p h :
  (∀ l, l ∈ proc_operators p → ∃ v nm t, h !! l = Some (Summer v nm t)) →
  ∃ d, Processor_output (S n) p h = (Ok d, h) ∧
    ∀ i l v nm t,
      proc_operators p !! i = Some l → h !! l = Some (Summer v nm t) →
      (∀ j l' v' nm' t', i < j → proc_operators p !! j = Some l' →
         h !! l' = Some (Summer v' nm' t') → nm' ≠ nm) →
      dict_get d (VStr nm) = Some (PVal (VInt t)).
Proof.
  intros Hall. unfold Processor_output.
  destruct (collect_loop_Summers n (proc_operators p) [] h Hall)
    as (d & Hrun & _ & Hin).
  by exists d.
Qed.

Lemma Processor_output_Summers_witness :
  ∃ d, Processor_output 1
         {| data_iterator := []; proc_operators := [1; 2] |} store_A15
       = (Ok d, store_A15) ∧
    ∀ i l v nm t,
      [1; 2] !! i = Some l → store_A15 !! l = Some (Summer v nm t) →
      (∀ j l' v' nm' t', i < j → [1; 2] !! j = Some l' →
         store_A15 !! l' = Some (Summer v' nm' t') → nm' ≠ nm) →
      dict_get d (VStr nm) = Some (PVal (VInt t)).
Proof.
  apply (Processor_output_Summers 0
           {| data_iterator := []; proc_operators := [1; 2] |} store_A15).
  intros l Hl. simpl in Hl.
  apply elem_of_cons in Hl as [->|Hl]; [by do 3 eexists|].
  apply elem_of_cons in Hl as [->|Hl]; [by do 3 eexists|].
  inversion Hl.
Defined.

Lemma collect_loop_raises n pre : ∀ d0 l post h e h',
  (∀ x, x ∈ pre → ∃ v nm t, h !! x = Some (Summer v nm t)) →
  output (S n) l h = (Raise e, h') →
  collect_loop (S n) d0 (pre ++ l :: post) h = (Raise e, h').
Proof.
  induction pre as [|x pre IH]; intros d0 l post h e h' Hpre Hl.
  - cbn [app collect_loop]. unfold bind. by rewrite Hl.
  - destruct (Hpre x) as (v & nm & t & Hx); [by left|].
    cbn [app collect_loop]. unfold bind at 1.
    rewrite (output_Summer n x v nm t h Hx).
    apply IH; [|done]. intros y Hy. apply Hpre. by right.
Qed.

(** X8. [Processor.output] raises what the [output] of a root raises:
    when the roots before it are [Summer]s, the exception of the first
    root whose [output] raises is the outcome, and no mapping is
    returned.  A gate with a child among the roots is enough. *)
Theorem Processor_output_raises n p pre l post h e h' :
  proc_operators p = pre ++ l :: post →
  (∀ x, x ∈ pre → ∃ v nm t, h !! x = Some (Summer v nm t)) →
  output (S n) l h = (Raise e, h') →
  Processor_output (S n) p h = (Raise e, h').
Proof.
  intros Hp Hpre Hl. unfold Processor_output. rewrite Hp.
  by apply collect_loop_raises.
Qed.

Lemma Processor_output_raises_witness :
  Processor_output 1
    {| data_iterator := []; proc_operators := [2] ++ 0 :: [1] |} store_gate
  = (Raise TypeError, store_gate).
Proof.
  apply (Processor_output_raises 0
           {| data_iterator := []; proc_operators := [2] ++ 0 :: [1] |}
           [2] 0 [1] store_gate TypeError store_gate).
  - reflexivity.
  - intros x ->%list_elem_of_singleton. by do 3 eexists.
  - reflexivity.
Defined.

(** ** Group totals *)

Lemma deepcopy_Summer n s h v nm t :
  h !! s = Some (Summer v nm t) →
  deepcopy (S n) [s] h = (Ok [List.length h], h ++ [Summer v nm t]).
Proof.
  intros Hs. unfold deepcopy. cbn [deepcopy_list deepcopy_op].
  rewrite lookup_empty. unfold bind, deref, alloc, store, ret.
  rewrite Hs. simpl.
  by rewrite insert_app_r_alt, Nat.sub_diag by lia.
Qed.

Lemma field_sum_app v xs ys :
  field_sum v (xs ++ ys) = (field_sum v xs + field_sum v ys)%Z.
Proof. induction xs as [|x xs IH]; simpl; lia. Qed.

Lemma filter_none {A} (f : A → bool) xs :
  existsb f xs = false → List.filter f xs = [].
Proof.
  induction xs as [|x xs IH]; [done|]. simpl.
  destruct (f x); [done|]. apply IH.
Qed.

Lemma existsb_same {A} (f f' : A → bool) xs :
  (∀ x, f x = f' x) → existsb f xs = existsb f' xs.
Proof. intros Hf. induction xs as [|x xs IH]; simpl; by rewrite ?Hf, ?IH. Qed.

Lemma filter_same {A} (f f' : A → bool) xs :
  (∀ x, f x = f' x) → List.filter f xs = List.filter f' xs.
Proof. intros Hf. induction xs as [|x xs IH]; simpl; by rewrite ?Hf, ?IH. Qed.

Lemma key_sum_snoc gb k v done d :
  field_sum v (List.filter (has_key gb k) (done ++ [d]))
  = (field_sum v (List.filter (has_key gb k) done)
     + if has_key gb k d then field_value v d else 0)%Z.
Proof.
  rewrite List.filter_app, field_sum_app. simpl.
  destruct (has_key gb k d); simpl; lia.
Qed.

Lemma has_key_py_eq gb k k' d :
  py_eq k k' = true → has_key gb k d = has_key gb k' d.
Proof.
  intros Hk. unfold has_key. destruct (d !! gb) as [kd|]; [|done].
  destruct (py_eq kd k) eqn:H1, (py_eq kd k') eqn:H2; try done.
  - by rewrite (py_eq_trans kd k k') in H2.
  - rewrite py_eq_sym in Hk. by rewrite (py_eq_trans kd k' k) in H1.
Qed.

Lemma dict_get_None_lookup {A} (d : list (value * A)) k i k' a :
  dict_get d k = None → d !! i = Some (k', a) → py_eq k' k = false.
Proof.
  revert i. induction d as [|[k1 a1] d IH]; intros i; [done|]. simpl.
  destruct (py_eq k1 k) eqn:H1; [done|]. intros Hd.
  destruct i as [|i]; [by intros [= <- <-]|]. by apply IH.
Qed.

Lemma dict_get_app_None {A} (d : list (value * A)) k' a k :
  dict_get (d ++ [(k', a)]) k = None →
  dict_get d k = None ∧ py_eq k' k = false.
Proof.
  induction d as [|[k1 a1] d IH]; simpl.
  - by destruct (py_eq k' k).
  - by destruct (py_eq k1 k).
Qed.

(** One record on a [Grouper] over one [Summer]. *)
Lemma group_state_step n B g s gb nm v nmS t0 done gs h d :
  group_state B g s gb nm v nmS t0 done gs h →
  is_Some (d !! gb) → is_Some (d !! v) →
  ∃ gs' h', run (S (S n)) d g h = (Ok tt, h') ∧
            group_state B g s gb nm v nmS t0 (done ++ [d]) gs' h'.
Proof.
  intros (Hg & Hs & HgB & HsB & Hlen & Hent & Hdis & Hnone) [kd Hkd] Hv.
  assert (g ≠ s) as Hgs by (intros ->; congruence).
  assert (has_key gb kd d = true) as Hkk.
  { unfold has_key. rewrite Hkd. apply py_eq_refl. }
  assert (∀ k, has_key gb k d = py_eq kd k) as Hhk.
  { intros k. unfold has_key. by rewrite Hkd. }
  destruct (dict_get gs kd) as [c|] eqn:Hd.
  - (* the key has a group *)
    destruct (dict_get_lookup gs kd c Hd) as (j & kj & Hj & Hkj).
    destruct (Hent j kj c Hj) as (-> & Hex & Hcell).
    rewrite (run_Grouper_old (S n) d g h gb [s] nm gs kd [B + j] Hg Hkd Hd).
    cbn [for_each]. unfold bind.
    rewrite (run_Summer_present n d v nmS _ (B + j) h Hcell Hv).
    eexists gs, _. split; [done|].
    assert (B + j < List.length h) as Hjl by (by eapply lookup_lt_Some).
    split_and!; try done.
    + rewrite list_lookup_insert_ne by lia. done.
    + rewrite list_lookup_insert_ne by lia. done.
    + by rewrite length_insert.
    + intros i ki ci Hi. destruct (Hent i ki ci Hi) as (-> & Hexi & Hci).
      split_and!; [done|..].
      * rewrite existsb_app, Hexi. done.
      * rewrite key_sum_snoc, Hhk.
        destruct (decide (i = j)) as [->|Hne].
        -- assert (ki = kj) as -> by congruence.
           rewrite list_lookup_insert_eq by done.
           rewrite py_eq_sym, Hkj. do 2 f_equal. lia.
        -- rewrite list_lookup_insert_ne by lia.
           assert (py_eq kd ki = false) as ->.
           { destruct (py_eq kd ki) eqn:Hki; [|done].
             rewrite <- (Hdis j i kj [B + j] ki [B + i]); [|done..].
             symmetry. by apply (py_eq_trans kj kd ki). }
           rewrite Hci. do 2 f_equal. lia.
    + intros k Hk. rewrite existsb_app, (Hnone k Hk). simpl.
      rewrite Hhk, orb_false_r.
      destruct (py_eq kd k) eqn:Hkdk; [|done].
      rewrite (dict_get_py_eq gs kd k Hkdk) in Hd. congruence.
  - (* the first record of the key *)
    rewrite (run_Grouper_new (S n) d g h gb [s] nm gs kd
               (Ok [List.length h]) (h ++ [Summer v nmS t0]) Hg Hkd Hd);
      [|by apply deepcopy_Summer|by apply prefix_app_r].
    set (h1 := <[g := Grouper gb [s] nm (gs ++ [(kd, [List.length h])])]>
                 (h ++ [Summer v nmS t0])).
    assert (g < List.length h) as Hgl by lia.
    assert (s < List.length h) as Hsl by lia.
    assert (h1 !! List.length h = Some (Summer v nmS t0)) as Hnew.
    { unfold h1. rewrite list_lookup_insert_ne by lia.
      by rewrite lookup_app_r, Nat.sub_diag by lia. }
    cbn [for_each]. unfold bind.
    rewrite (run_Summer_present n d v nmS t0 (List.length h) h1 Hnew Hv).
    eexists (gs ++ [(kd, [List.length h])]), _. split; [done|].
    assert (List.length h1 = S (List.length h)) as Hlen1.
    { unfold h1. rewrite length_insert, length_app. simpl. lia. }
    assert (∀ x, x < List.length h → x ≠ g →
              (<[List.length h := Summer v nmS (t0 + field_value v d)%Z]> h1)
                !! x = h !! x) as Hold.
    { intros x Hx Hxg. rewrite list_lookup_insert_ne by lia. unfold h1.
      rewrite list_lookup_insert_ne by done. by rewrite lookup_app_l. }
    split_and!; try done.
    + rewrite list_lookup_insert_ne by lia. unfold h1.
      apply list_lookup_insert_eq. rewrite length_app. lia.
    + by rewrite Hold.
    + rewrite length_insert, Hlen1, length_app. simpl. lia.
    + intros i ki ci Hi.
      destruct (decide (i < List.length gs)) as [Hlt|Hge].
      * rewrite lookup_app_l in Hi by done.
        destruct (Hent i ki ci Hi) as (-> & Hexi & Hci).
        split_and!; [done|..].
        -- rewrite existsb_app, Hexi. done.
        -- rewrite Hold by lia. rewrite key_sum_snoc, Hhk.
           assert (py_eq kd ki = false) as ->.
           { rewrite py_eq_sym. by eapply dict_get_None_lookup. }
           rewrite Hci. do 2 f_equal. lia.
      * rewrite lookup_app_r in Hi by lia.
        destruct (i - List.length gs) as [|i'] eqn:Hi'; [|done].
        injection Hi as <- <-.
        assert (i = List.length gs) as -> by lia.
        rewrite <- Hlen. split_and!; [done|..].
        -- rewrite existsb_app. simpl. by rewrite Hkk, orb_true_r.
        -- rewrite list_lookup_insert_eq by lia.
           rewrite key_sum_snoc, Hkk.
           by rewrite (filter_none _ done (Hnone kd Hd)).
    + intros i j ki ci kj cj Hij Hi Hj.
      destruct (decide (i < List.length gs)) as [Hli|Hgi];
        destruct (decide (j < List.length gs)) as [Hlj|Hgj].
      * rewrite lookup_app_l in Hi, Hj by done. by eapply Hdis.
      * rewrite lookup_app_l in Hi by done.
        rewrite lookup_app_r in Hj by lia.
        destruct (j - List.length gs) as [|j']; [|done].
        injection Hj as <- <-. by eapply dict_get_None_lookup.
      * rewrite lookup_app_l in Hj by done.
        rewrite lookup_app_r in Hi by lia.
        destruct (i - List.length gs) as [|i']; [|done].
        injection Hi as <- <-. rewrite py_eq_sym.
        by eapply dict_get_None_lookup.
      * rewrite lookup_app_r in Hi, Hj by lia.
        destruct (i - List.length gs) as [|i'] eqn:Hi'; [|done].
        destruct (j - List.length gs) as [|j'] eqn:Hj'; [|done]. lia.
    + intros k [Hk Hkdk]%dict_get_app_None.
      rewrite existsb_app, (Hnone k Hk). simpl.
      by rewrite Hhk, Hkdk.
Qed.

Lemma group_state_pass n B g s gb nm v nmS t0 datas :
  ∀ done gs h,
    group_state B g s gb nm v nmS t0 done gs h →
    (∀ d, d ∈ datas → is_Some (d !! gb) ∧ is_Some (d !! v)) →
    ∃ gs' h', for_each (λ d, run (S (S n)) d g) datas h = (Ok tt, h') ∧
              group_state B g s gb nm v nmS t0 (done ++ datas) gs' h'.
Proof.
  induction datas as [|d datas IH]; intros done gs h Hst Hall.
  - exists gs, h. by rewrite app_nil_r.
  - destruct (Hall d) as [Hgb Hv]; [by left|].
    destruct (group_state_step n B g s gb nm v nmS t0 done gs h d Hst Hgb Hv)
      as (gs1 & h1 & Hrun1 & Hst1).
    destruct (IH (done ++ [d]) gs1 h1 Hst1) as (gs' & h' & Hrun & Hst').
    { intros d' Hd'. apply Hall. by right. }
    exists gs', h'. cbn [for_each]. unfold bind. rewrite Hrun1.
    split; [done|]. by rewrite <- app_assoc in Hst'.
Qed.

(** X9. A [Grouper] without groups over one [Summer], run over records
    that all have the group field and the summed field: the pass ends
    without an exception, and for every key [k] there is a group exactly
    when some record has a key equal to [k]; that group is one new
    [Summer] whose total is the total of the template raised by the sum
    over the records of the key.  The template itself is as it was. *)
Theorem Grouper_Summer_totals n datas g s h gb nm v nmS t0 :
  h !! g = Some (Grouper gb [s] nm []) →
  h !! s = Some (Summer v nmS t0) →
  (∀ d, d ∈ datas → is_Some (d !! gb) ∧ is_Some (d !! v)) →
  ∃ gs h',
    for_each (λ d, run (S (S n)) d g) datas h = (Ok tt, h') ∧
    h' !! g = Some (Grouper gb [s] nm gs) ∧
    h' !! s = Some (Summer v nmS t0) ∧
    ∀ k, match dict_get gs k with
         | Some c =>
             existsb (has_key gb k) datas = true ∧
             ∃ x, c = [x] ∧ List.length h ≤ x ∧
                  h' !! x
                  = Some (Summer v nmS
                            (t0 + field_sum v
                                    (List.filter (has_key gb k) datas))%Z)
         | None => existsb (has_key gb k) datas = false
         end.
Proof.
  intros Hg Hs Hall.
  destruct (group_state_pass n (List.length h) g s gb nm v nmS t0 datas
              [] [] h) as (gs & h' & Hrun & Hst); [|done|].
  { split_and!; try done; try (by eapply lookup_lt_Some); simpl; lia. }
  simpl in Hst.
  destruct Hst as (Hg' & Hs' & _ & _ & _ & Hent & _ & Hnone).
  exists gs, h'. split_and!; [done..|]. intros k.
  destruct (dict_get gs k) as [c|] eqn:Hd; [|by apply Hnone].
  destruct (dict_get_lookup gs k c Hd) as (j & kj & Hj & Hkj).
  destruct (Hent j kj c Hj) as (-> & Hex & Hcell). split.
  - rewrite <- Hex. apply existsb_same. intros d. symmetry.
    by apply has_key_py_eq.
  - exists (List.length h + j). split_and!; [done|lia|].
    rewrite Hcell.
    rewrite (filter_same (has_key gb kj) (has_key gb k)); [done|].
    intros d. by apply has_key_py_eq.
Qed.

Lemma Grouper_Summer_totals_witness :
  ∃ gs h',
    for_each (λ d, run 2 d 0) [rec_A10; rec_B7; rec_A5]
      [Grouper "dept" [1] "group" []; Summer "amt" "total" 0]
    = (Ok tt, h') ∧
    h' !! 0 = Some (Grouper "dept" [1] "group" gs) ∧
    h' !! 1 = Some (Summer "amt" "total" 0) ∧
    ∀ k, match dict_get gs k with
         | Some c =>
             existsb (has_key "dept" k) [rec_A10; rec_B7; rec_A5] = true ∧
             ∃ x, c = [x] ∧ 2 ≤ x ∧
                  h' !! x
                  = Some (Summer "amt" "total"
                            (0 + field_sum "amt"
                                   (List.filter (has_key "dept" k)
                                      [rec_A10; rec_B7; rec_A5]))%Z)
         | None =>
             existsb (has_key "dept" k) [rec_A10; rec_B7; rec_A5] = false
         end.
Proof.
  apply (Grouper_Summer_totals 0 [rec_A10; rec_B7; rec_A5] 0 1
           [Grouper "dept" [1] "group" []; Summer "amt" "total" 0]
           "dept" "group" "amt" "total" 0).
  - reflexivity.
  - reflexivity.
  - intros d Hd.
    repeat (apply elem_of_cons in Hd as [->|Hd]; [split; by eexists|]).
    inversion Hd.
Defined.

(** ** The spreadsheet adapter *)

Lemma map_columns_raises gcl row : ∀ m,
  (∃ e, Adapter.map_columns gcl m row = inl e) ↔
  ∃ j cj, row !! j = Some cj ∧
    (dict_contains m (Adapter.content cj) = true ∨
     ∃ i ci, i < j ∧ row !! i = Some ci ∧
       py_eq (VInt (Adapter.column ci)) (Adapter.content cj) = true).
Proof.
  induction row as [|c rest IH]; intros m.
  - simpl. split; [by intros [e He]|]. by intros (j & cj & Hj & _).
  - cbn [Adapter.map_columns].
    destruct (dict_contains m (Adapter.content c)) eqn:Hc; cbn [negb].
    + split.
      * intros _. exists 0, c. split; [done|]. by left.
      * intros _. unfold dict_contains in Hc.
        destruct (dict_get m (Adapter.content c)) as [v|]; [|done].
        destruct (gcl v) as [e|letter]; by eexists.
    + rewrite IH. split.
      * intros (j & cj & Hj & Hcase). exists (S j), cj. split; [done|].
        destruct Hcase as [Hin|(i & ci & Hij & Hi & Heq)].
        -- rewrite dict_contains_set in Hin.
           apply orb_true_iff in Hin as [Hin|Hin]; [by left|].
           right. exists 0, c. split_and!; [lia|done..].
        -- right. exists (S i), ci. split_and!; [lia|done..].
      * intros (j & cj & Hj & Hcase). destruct j as [|j].
        { injection Hj as <-.
          destruct Hcase as [Hin|(i & ci & Hij & _)]; [congruence|lia]. }
        exists j, cj. split; [done|].
        destruct Hcase as [Hin|(i & ci & Hij & Hi & Heq)].
        -- left. rewrite dict_contains_set, Hin. done.
        -- destruct i as [|i].
           ++ injection Hi as <-. left.
              rewrite dict_contains_set, Heq. apply orb_true_r.
           ++ right. exists i, ci. split_and!; [lia|done..].
Qed.



(** X11. A header row whose cells hold only names or nothing is always
    accepted, two cells with the same name included: the constructor does
    not detect a column name that is defined twice. *)
Theorem header_of_names_accepted gcl header data_rows :
  (∀ c, c ∈ header →
     match Adapter.content c with VStr _ | VNone => True | _ => False end) →
  ∃ s, Adapter.init gcl header data_rows = inr s ∧
       Adapter.rows s = data_rows.
Proof.
  intros Hnames. unfold Adapter.init.
  destruct (Adapter.map_columns gcl [] header) as [e|m] eqn:Hm;
    [|by eexists].
  exfalso.
  destruct (proj1 (map_columns_raises gcl header []) (ex_intro _ e Hm))
    as (j & cj & Hcj & [Hin|Hcase]); [done|].
  destruct Hcase as (i & ci & _ & _ & Heq).
  apply list_elem_of_lookup_2 in Hcj. specialize (Hnames cj Hcj).
  by destruct (Adapter.content cj).
Qed.

Lemma header_of_names_accepted_witness :
  ∃ s, Adapter.init (λ _, inl Adapter.TypeError)
         [ {| Adapter.column := 1; Adapter.content := VStr "pay" |};
           {| Adapter.column := 2; Adapter.content := VStr "pay" |} ] []
       = inr s ∧
       Adapter.rows s = [].
Proof.
  apply (header_of_names_accepted (λ _, inl Adapter.TypeError)
           [ {| Adapter.column := 1; Adapter.content := VStr "pay" |};
             {| Adapter.column := 2; Adapter.content := VStr "pay" |} ] []).
  intros c Hc.
  apply elem_of_cons in Hc as [->|Hc]; [done|].
  apply elem_of_cons in Hc as [->|Hc]; [done|]. inversion Hc.
Defined.

Lemma int_key_ne a b : a ≠ b → py_eq (VInt a) (VInt b) = false.
Proof. intros Hne. simpl. by apply Z.eqb_neq. Qed.

Lemma map_columns_lookup gcl row : ∀ m0 m,
  Adapter.map_columns gcl m0 row = inr m →
  NoDup (Adapter.column <$> row) →
  (∀ z, z ∉ Adapter.column <$> row →
        dict_get m (VInt z) = dict_get m0 (VInt z)) ∧
  (∀ i c, row !! i = Some c →
          dict_get m (VInt (Adapter.column c)) = Some (Adapter.content c)).
Proof.
  induction row as [|c rest IH]; intros m0 m Hm Hnd.
  - injection Hm as <-. split; [done|]. by intros i c Hi.
  - cbn [Adapter.map_columns] in Hm.
    destruct (dict_contains m0 (Adapter.content c)) eqn:Hc0; simpl in Hm.
    { unfold dict_contains in Hc0.
      destruct (dict_get m0 (Adapter.content c)) as [v|]; [|done].
      by destruct (gcl v). }
    rewrite fmap_cons in Hnd. apply NoDup_cons in Hnd as [Hc Hnd].
    destruct (IH _ m Hm Hnd) as [Hout Hin]. split.
    + intros z Hz. rewrite fmap_cons in Hz.
      apply not_elem_of_cons in Hz as [Hzc Hz].
      rewrite (Hout z Hz). by apply dict_get_set_ne, int_key_ne.
    + intros i ci Hi. destruct i as [|i]; [|by eapply Hin].
      injection Hi as <-. rewrite (Hout _ Hc). apply dict_get_set_eq.
Qed.

Lemma fill_row_lookup mapping row : ∀ d0,
  (∀ c, c ∈ row → is_Some (dict_get mapping (VInt (Adapter.column c)))) →
  ∃ d, Adapter.fill_row mapping d0 row = inr d ∧
    ∀ i c nm, row !! i = Some c →
      dict_get mapping (VInt (Adapter.column c)) = Some nm →
      (∀ j c' nm', i < j → row !! j = Some c' →
         dict_get mapping (VInt (Adapter.column c')) = Some nm' →
         py_eq nm' nm = false) →
      dict_get d nm = Some (Adapter.content c).
Proof.
  induction row as [|c rest IH]; intros d0 Hall.
  - exists d0. split; [done|]. by intros i c nm Hi.
  - destruct (Hall c) as [nm Hnm]; [by left|].
    cbn [Adapter.fill_row]. rewrite Hnm.
    destruct (IH (dict_set d0 nm (Adapter.content c))) as (d & Hrun & Hin).
    { intros c' Hc'. apply Hall. by right. }
    exists d. split; [done|].
    intros i ci nmi Hi Hnmi Hlast. destruct i as [|i].
    + injection Hi as <-. assert (nmi = nm) as -> by congruence.
      clear Hin IH. revert d Hrun.
      generalize (dict_get_set_eq d0 nm (Adapter.content c)).
      generalize (dict_set d0 nm (Adapter.content c)).
      assert (∀ j c' nm', rest !! j = Some c' →
                dict_get mapping (VInt (Adapter.column c')) = Some nm' →
                py_eq nm' nm = false) as Hrest.
      { intros j c' nm' Hj. apply (Hlast (S j)); [lia|done]. }
      clear Hlast Hall. induction rest as [|c1 rest IHr]; intros d1 Hd1 d Hrun.
      * by injection Hrun as <-.
      * cbn [Adapter.fill_row] in Hrun.
        destruct (dict_get mapping (VInt (Adapter.column c1)))
          as [nm1|] eqn:Hnm1; [|done].
        apply (IHr (λ j, Hrest (S j)) _ ) in Hrun; [done|].
        rewrite dict_get_set_ne; [done|]. by apply (Hrest 0 c1).
    + apply (Hin i ci nmi Hi Hnmi).
      intros j c' nm' Hij Hj. apply (Hlast (S j)); [lia|done].
Qed.

(** X12. Header and row together: when the constructor accepted a header
    with distinct column numbers and the next row has the same columns,
    [__next__] returns a record in which a header name holds the value of
    the row at its column, provided no later header cell has an equal
    name; of two columns of one name the later one is in the record. *)
Theorem adapter_round_trip gcl header data_row rest s :
  Adapter.init gcl header (data_row :: rest) = inr s →
  NoDup (Adapter.column <$> header) →
  Adapter.column <$> data_row = Adapter.column <$> header →
  ∃ d, Adapter.next s
       = (inr d, {| Adapter.mapping := Adapter.mapping s;
                    Adapter.rows := rest |}) ∧
    ∀ i hc dc, header !! i = Some hc → data_row !! i = Some dc →
      (∀ j hc', i < j → header !! j = Some hc' →
         py_eq (Adapter.content hc') (Adapter.content hc) = false) →
      dict_get d (Adapter.content hc) = Some (Adapter.content dc).
Proof.
  intros Hinit Hnd Hcols. unfold Adapter.init in Hinit.
  destruct (Adapter.map_columns gcl [] header) as [e|m] eqn:Hm; [done|].
  injection Hinit as <-. unfold Adapter.next. simpl.
  destruct (map_columns_lookup gcl header [] m Hm Hnd) as [_ Hmap].
  assert (∀ i dc, data_row !! i = Some dc →
            ∃ hc, header !! i = Some hc ∧
                  Adapter.column hc = Adapter.column dc) as Hsame.
  { intros i dc Hi.
    assert ((Adapter.column <$> header) !! i = Some (Adapter.column dc))
      as Hh by (by rewrite <- Hcols, list_lookup_fmap, Hi).
    rewrite list_lookup_fmap in Hh.
    destruct (header !! i) as [hc|]; [|done].
    exists hc. split; [done|]. by injection Hh. }
  destruct (fill_row_lookup m data_row []) as (d & Hrun & Hin).
  { intros c Hc. apply list_elem_of_lookup_1 in Hc as [i Hi].
    destruct (Hsame i c Hi) as (hc & Hhc & <-). rewrite (Hmap i hc Hhc).
    by eexists. }
  exists d. split; [by rewrite Hrun|].
  intros i hc dc Hhc Hdc Hlast.
  destruct (Hsame i dc Hdc) as (hc' & Hhc' & Hcol).
  assert (hc' = hc) as -> by congruence.
  apply (Hin i dc (Adapter.content hc) Hdc).
  - rewrite <- Hcol. by apply (Hmap i).
  - intros j dc' nm' Hij Hj Hnm'.
    destruct (Hsame j dc' Hj) as (hcj & Hhcj & Hcolj).
    rewrite <- Hcolj, (Hmap j hcj Hhcj) in Hnm'. injection Hnm' as <-.
    by apply (Hlast j).
Qed.

Lemma adapter_round_trip_witness :
  ∃ d, Adapter.next
         {| Adapter.mapping := [(VInt 1, VStr "dept"); (VInt 2, VStr "amt")];
            Adapter.rows :=
              [[ {| Adapter.column := 1; Adapter.content := VStr "A" |};
                 {| Adapter.column := 2; Adapter.content := VInt 10 |} ]] |}
       = (inr d,
          {| Adapter.mapping :=
               Adapter.mapping
                 {| Adapter.mapping :=
                      [(VInt 1, VStr "dept"); (VInt 2, VStr "amt")];
                    Adapter.rows :=
                      [[ {| Adapter.column := 1;
                            Adapter.content := VStr "A" |};
                         {| Adapter.column := 2;
                            Adapter.content := VInt 10 |} ]] |};
             Adapter.rows := [] |}) ∧
    ∀ i hc dc,
      [ {| Adapter.column := 1; Adapter.content := VStr "dept" |};
        {| Adapter.column := 2; Adapter.content := VStr "amt" |} ] !! i
      = Some hc →
      [ {| Adapter.column := 1; Adapter.content := VStr "A" |};
        {| Adapter.column := 2; Adapter.content := VInt 10 |} ] !! i
      = Some dc →
      (∀ j hc', i < j →
         [ {| Adapter.column := 1; Adapter.content := VStr "dept" |};
           {| Adapter.column := 2; Adapter.content := VStr "amt" |} ] !! j
         = Some hc' →
         py_eq (Adapter.content hc') (Adapter.content hc) = false) →
      dict_get d (Adapter.content hc) = Some (Adapter.content dc).
Proof.
  apply (adapter_round_trip (λ _, inl Adapter.TypeError)
           [ {| Adapter.column := 1; Adapter.content := VStr "dept" |};
             {| Adapter.column := 2; Adapter.content := VStr "amt" |} ]
           [ {| Adapter.column := 1; Adapter.content := VStr "A" |};
             {| Adapter.column := 2; Adapter.content := VInt 10 |} ] []).
  - reflexivity.
  - simpl. apply NoDup_cons. split.
    + by intros ?%list_elem_of_singleton.
    + apply NoDup_singleton.
  - reflexivity.
Defined.

(** X13. [__next__] on a row with a cell whose column the header row did
    not have raises [KeyError], and the row is consumed all the same: the
    next call reads the row after it. *)
Theorem next_unmapped_column s pre c post rest :
  Adapter.rows s = (pre ++ c :: post) :: rest →
  (∀ x, x ∈ pre →
     is_Some (dict_get (Adapter.mapping s) (VInt (Adapter.column x)))) →
  dict_get (Adapter.mapping s) (VInt (Adapter.column c)) = None →
  Adapter.next s
  = (inl Adapter.KeyError,
     {| Adapter.mapping := Adapter.mapping s; Adapter.rows := rest |}).
Proof.
  intros Hrows Hpre Hc. unfold Adapter.next. rewrite Hrows. f_equal.
  clear Hrows. revert Hpre. generalize (@nil (value * value)).
  induction pre as [|x pre IH]; intros d0 Hpre.
  - simpl. by rewrite Hc.
  - destruct (Hpre x) as [nm Hnm]; [by left|].
    simpl. rewrite Hnm. apply IH.
    intros y Hy. apply Hpre. by right.
Qed.

Lemma next_unmapped_column_witness :
  Adapter.next
    {| Adapter.mapping := [(VInt 1, VStr "dept")];
       Adapter.rows :=
         [ [] ++ {| Adapter.column := 2; Adapter.content := VInt 10 |}
              :: [] ] |}
  = (inl Adapter.KeyError,
     {| Adapter.mapping := [(VInt 1, VStr "dept")]; Adapter.rows := [] |}).
Proof.
  apply (next_unmapped_column
           {| Adapter.mapping := [(VInt 1, VStr "dept")];
              Adapter.rows :=
                [ [] ++ {| Adapter.column := 2; Adapter.content := VInt 10 |}
                     :: [] ] |}
           [] {| Adapter.column := 2; Adapter.content := VInt 10 |} [] []).
  - reflexivity.
  - intros x Hx. inversion Hx.
  - reflexivity.
Defined.

(** ** A record without the group field *)

(** X14. A record without the group field ends the whole pass: when the
    roots before a [Grouper] ran without an exception on it, the
    [Grouper] raises [KeyError] before it copies or dispatches anything,
    the roots after it are not run on the record, and no later record is
    processed. *)
Theorem missing_group_field_ends_pass n d1 d d2 pre g post h h1 h2
    gb ops nm gs :
  for_each (λ data, for_each (run (S n) data) (pre ++ g :: post)) d1 h
  = (Ok tt, h1) →
  for_each (run (S n) d) pre h1 = (Ok tt, h2) →
  h2 !! g = Some (Grouper gb ops nm gs) → d !! gb = None →
  Processor_start (S n)
    {| data_iterator := d1 ++ d :: d2;
       proc_operators := pre ++ g :: post |} h
  = (Raise KeyError, h2).
Proof.
  intros H1 Hpre Hg Hd. unfold Processor_start.
  cbn [data_iterator proc_operators].
  rewrite for_each_app. unfold bind at 1. rewrite H1.
  cbn [for_each]. unfold bind at 1.
  rewrite for_each_app. unfold bind at 1. rewrite Hpre.
  cbn [for_each]. unfold bind at 1.
  by rewrite (run_Grouper_no_key n d g h2 gb ops nm gs Hg Hd).
Qed.

Lemma missing_group_field_ends_pass_witness :
  Processor_start 3
    {| data_iterator := [rec_A5] ++ {[ "amt" := VInt 1 ]} :: [rec_B7];
       proc_operators := [1] ++ 0 :: [2] |} store_A15
  = (Raise KeyError,
     [Grouper "dept" [1] "group" [(VStr "A", [2])];
      Summer "amt" "total" 6; Summer "amt" "total" 25]).
Proof.
  apply (missing_group_field_ends_pass 2 [rec_A5] {[ "amt" := VInt 1 ]}
           [rec_B7] [1] 0 [2] store_A15
           [Grouper "dept" [1] "group" [(VStr "A", [2])];
            Summer "amt" "total" 5; Summer "amt" "total" 25]
           [Grouper "dept" [1] "group" [(VStr "A", [2])];
            Summer "amt" "total" 6; Summer "amt" "total" 25]
           "dept" [1] "group" [(VStr "A", [2])]).
  - reflexivity.
  - reflexivity.
  - reflexivity.
  - reflexivity.
Defined.
